(** * The per-node query registry of the StarRocks backend

    A shallow embedding of [be/src/exec/pipeline/query_context.h] and
    [be/src/common/tracer.h], followed by the properties of the
    query-context lifecycle that are checked against it.

    Conventions.
    - A [size_t] is a [Z] in [0, 2^w); the fetch-and-add operations of
      [std::atomic<size_t>] wrap modulo [2^w], written out with [Z.modulo].
      The width [w] is a variable of the development (at least 16, as the
      C standard requires of [size_t]).
    - An [int64_t] is a [Z]; arithmetic on it is wrapped to the signed 64-bit
      range by [int64_wrap].  Every statement about deadlines is made under a
      no-overflow precondition, so none of them depends on what the hardware
      does on signed overflow.
    - A raw C++ pointer to a collaborator object ([ExecEnv*],
      [DescriptorTbl*]) is an [option positive]; [None] is [nullptr].
    - [steady_clock::now().time_since_epoch()] is an argument [now] of the
      methods that read the clock, counted in ticks of one nanosecond (the
      period of [steady_clock] in libstdc++). *)

From stdpp Require Import gmap gmultiset list sorting strings.

Local Open Scope Z_scope.

(** ** Basic types *)

(** [TUniqueId] (gen_cpp/Types_types.h): a pair of 64-bit integers, compared
    and hashed field by field. *)
Record TUniqueId : Type := mkTUniqueId {
  hi : Z;
  lo : Z
}.

#[global] Instance TUniqueId_eq_dec : EqDecision TUniqueId.
Proof. solve_decision. Defined.

#[global] Instance TUniqueId_countable : Countable TUniqueId.
Proof.
  apply (inj_countable' (fun id => (hi id, lo id))
                        (fun p => mkTUniqueId (fst p) (snd p))).
  intros [h l]. reflexivity.
Defined.

Definition ptr : Type := option positive.
Definition nullptr : ptr := None.

(** [Status], reduced to its status code. *)
Definition Status : Type := Z.

(** [ObjectPool]: the addresses of the objects allocated from the arena. *)
Definition ObjectPool : Type := list positive.

(** Modelled from the spec: [FragmentContextManager]
    (exec/pipeline/fragment_context.h is not part of the sources).  The
    sub-registry of a query's fragments; its internals are out of scope, and
    only the status forwarded by a cancellation is kept. *)
Record FragmentContextManager : Type := mkFragmentContextManager {
  _cancel_status : option Status
}.

(** The two ways a method call can end: it returns a value, or a failed
    assertion terminates the process. *)
Inductive outcome (A : Type) : Type :=
| Returns (a : A)
| Aborts.
Arguments Returns {A} a.
Arguments Aborts {A}.

(** The build mode, which decides whether [DCHECK] is compiled in. *)
Inductive build : Type := Debug | Release.

(** Modelled from the spec: [DCHECK] (a macro of the logging library, not
    part of the sources), a debug assertion: the condition is checked in
    debug builds and compiled out in every other build.  [DCHECK b c] tells
    whether execution continues past the assertion. *)
Definition DCHECK (b : build) (cond : bool) : bool :=
  match b with
  | Debug => cond
  | Release => true
  end.

(** ** Fixed-width arithmetic *)

Definition int64_wrap (z : Z) : Z := (z + 2 ^ 63) mod 2 ^ 64 - 2 ^ 63.

(** [duration_cast<milliseconds>] of a count of nanoseconds: integer
    division truncating towards zero. *)
Definition ns_to_ms (ns : Z) : Z := Z.quot ns 1000000.

(** Conversion of a count of seconds to the common type (nanoseconds) of
    [steady_clock::duration + seconds]. *)
Definition s_to_ns (s : Z) : Z := int64_wrap (s * 1000000000).

(** ** QueryContext *)

(** The data members of [class QueryContext], in declaration order. *)
Record QueryContext : Type := mkQueryContext {
  _exec_env : ptr;
  _query_id : TUniqueId;
  _fragment_mgr : option FragmentContextManager;
  _total_fragments : Z;
  _num_fragments : Z;
  _num_active_fragments : Z;
  _deadline : Z;
  _expire_seconds : Z;
  _is_runtime_filter_coordinator : bool;
  _object_pool : ObjectPool;
  _desc_tbl : ptr
}.

(** Assignment to one data member. *)
Definition with_exec_env (v : ptr) (q : QueryContext) : QueryContext :=
  mkQueryContext v (_query_id q) (_fragment_mgr q) (_total_fragments q)
    (_num_fragments q) (_num_active_fragments q) (_deadline q)
    (_expire_seconds q) (_is_runtime_filter_coordinator q) (_object_pool q)
    (_desc_tbl q).

Definition with_query_id (v : TUniqueId) (q : QueryContext) : QueryContext :=
  mkQueryContext (_exec_env q) v (_fragment_mgr q) (_total_fragments q)
    (_num_fragments q) (_num_active_fragments q) (_deadline q)
    (_expire_seconds q) (_is_runtime_filter_coordinator q) (_object_pool q)
    (_desc_tbl q).

Definition with_fragment_mgr (v : option FragmentContextManager)
    (q : QueryContext) : QueryContext :=
  mkQueryContext (_exec_env q) (_query_id q) v (_total_fragments q)
    (_num_fragments q) (_num_active_fragments q) (_deadline q)
    (_expire_seconds q) (_is_runtime_filter_coordinator q) (_object_pool q)
    (_desc_tbl q).

Definition with_total_fragments (v : Z) (q : QueryContext) : QueryContext :=
  mkQueryContext (_exec_env q) (_query_id q) (_fragment_mgr q) v
    (_num_fragments q) (_num_active_fragments q) (_deadline q)
    (_expire_seconds q) (_is_runtime_filter_coordinator q) (_object_pool q)
    (_desc_tbl q).

Definition with_num_fragments (v : Z) (q : QueryContext) : QueryContext :=
  mkQueryContext (_exec_env q) (_query_id q) (_fragment_mgr q)
    (_total_fragments q) v (_num_active_fragments q) (_deadline q)
    (_expire_seconds q) (_is_runtime_filter_coordinator q) (_object_pool q)
    (_desc_tbl q).

Definition with_num_active_fragments (v : Z) (q : QueryContext)
    : QueryContext :=
  mkQueryContext (_exec_env q) (_query_id q) (_fragment_mgr q)
    (_total_fragments q) (_num_fragments q) v (_deadline q)
    (_expire_seconds q) (_is_runtime_filter_coordinator q) (_object_pool q)
    (_desc_tbl q).

Definition with_deadline (v : Z) (q : QueryContext) : QueryContext :=
  mkQueryContext (_exec_env q) (_query_id q) (_fragment_mgr q)
    (_total_fragments q) (_num_fragments q) (_num_active_fragments q) v
    (_expire_seconds q) (_is_runtime_filter_coordinator q) (_object_pool q)
    (_desc_tbl q).

Definition with_expire_seconds (v : Z) (q : QueryContext) : QueryContext :=
  mkQueryContext (_exec_env q) (_query_id q) (_fragment_mgr q)
    (_total_fragments q) (_num_fragments q) (_num_active_fragments q)
    (_deadline q) v (_is_runtime_filter_coordinator q) (_object_pool q)
    (_desc_tbl q).

Definition with_is_runtime_filter_coordinator (v : bool) (q : QueryContext)
    : QueryContext :=
  mkQueryContext (_exec_env q) (_query_id q) (_fragment_mgr q)
    (_total_fragments q) (_num_fragments q) (_num_active_fragments q)
    (_deadline q) (_expire_seconds q) v (_object_pool q) (_desc_tbl q).

Definition with_desc_tbl (v : ptr) (q : QueryContext) : QueryContext :=
  mkQueryContext (_exec_env q) (_query_id q) (_fragment_mgr q)
    (_total_fragments q) (_num_fragments q) (_num_active_fragments q)
    (_deadline q) (_expire_seconds q) (_is_runtime_filter_coordinator q)
    (_object_pool q) v.

(** Modelled from the spec: the constructor [QueryContext::QueryContext()]
    (query_context.cpp is not part of the sources).  The header's default
    member initialisers give [nullptr] to [_exec_env] and [_desc_tbl] and
    [false] to the coordinator flag; per the spec no fragment has started or
    is active in a new context and the fragment sub-registry is constructed
    lazily. *)
Definition QueryContext_new : QueryContext :=
  {| _exec_env := nullptr;
     _query_id := mkTUniqueId 0 0;
     _fragment_mgr := None;
     _total_fragments := 0;
     _num_fragments := 0;
     _num_active_fragments := 0;
     _deadline := 0;
     _expire_seconds := 0;
     _is_runtime_filter_coordinator := false;
     _object_pool := [];
     _desc_tbl := nullptr |}.

Definition set_exec_env (exec_env : ptr) (q : QueryContext) : QueryContext :=
  with_exec_env exec_env q.

Definition set_query_id (query_id : TUniqueId) (q : QueryContext)
    : QueryContext :=
  with_query_id query_id q.

Definition query_id (q : QueryContext) : TUniqueId := _query_id q.

Definition set_total_fragments (total_fragments : Z) (q : QueryContext)
    : QueryContext :=
  with_total_fragments total_fragments q.

Section Counters.

(** The bit width of [size_t]. *)
Variable w : Z.

Definition size_wrap (z : Z) : Z := z mod 2 ^ w.

(** [std::atomic<size_t>::fetch_add] and [fetch_sub]: one indivisible
    read-modify-write, giving the value read and the value stored. *)
Definition fetch_add (v d : Z) : Z * Z := (v, size_wrap (v + d)).
Definition fetch_sub (v d : Z) : Z * Z := (v, size_wrap (v - d)).

(** The two atomic operations of [increment_num_fragments], one per
    counter, in program order. *)
Definition fetch_add_num_fragments (q : QueryContext) : QueryContext :=
  with_num_fragments (snd (fetch_add (_num_fragments q) 1)) q.

Definition fetch_add_num_active_fragments (q : QueryContext) : QueryContext :=
  with_num_active_fragments (snd (fetch_add (_num_active_fragments q) 1)) q.

Definition increment_num_fragments (q : QueryContext) : QueryContext :=
  fetch_add_num_active_fragments (fetch_add_num_fragments q).

(** [return _num_active_fragments.fetch_sub(1) == 1;] *)
Definition count_down_fragments (q : QueryContext) : bool * QueryContext :=
  let '(old, new) := fetch_sub (_num_active_fragments q) 1 in
  (old =? 1, with_num_active_fragments new q).

End Counters.

Definition is_finished (q : QueryContext) : bool :=
  _num_active_fragments q =? 0.

(** [set_expire_seconds(int expire_seconds)]: the argument is an [int]. *)
Definition set_expire_seconds (expire_seconds : Z) (q : QueryContext)
    : QueryContext :=
  with_expire_seconds expire_seconds q.

Definition is_expired (now : Z) (q : QueryContext) : bool :=
  let now_ms := ns_to_ms now in
  is_finished q && (_deadline q <? now_ms).

Definition is_dead (q : QueryContext) : bool :=
  (_num_active_fragments q =? 0) && (_num_fragments q =? _total_fragments q).

Definition extend_lifetime (now : Z) (q : QueryContext) : QueryContext :=
  with_deadline
    (ns_to_ms (int64_wrap (now + s_to_ns (_expire_seconds q)))) q.

Definition set_is_runtime_filter_coordinator (flag : bool) (q : QueryContext)
    : QueryContext :=
  with_is_runtime_filter_coordinator flag q.

Definition object_pool (q : QueryContext) : ObjectPool := _object_pool q.

Definition set_desc_tbl (b : build) (desc_tbl : ptr) (q : QueryContext)
    : outcome QueryContext :=
  if DCHECK b (bool_decide (_desc_tbl q = nullptr))
  then Returns (with_desc_tbl desc_tbl q)
  else Aborts.

Definition desc_tbl (b : build) (q : QueryContext) : outcome ptr :=
  if DCHECK b (bool_decide (_desc_tbl q <> nullptr))
  then Returns (_desc_tbl q)
  else Aborts.

(** Modelled from the spec: [FragmentContextManager]'s constructor and its
    "cancel all fragments with status" operation. *)
Definition FragmentContextManager_new : FragmentContextManager :=
  {| _cancel_status := None |}.

Definition FragmentContextManager_cancel (status : Status)
    (m : FragmentContextManager) : FragmentContextManager :=
  {| _cancel_status := Some status |}.

(** Modelled from the spec: [QueryContext::fragment_mgr()] (declared in the
    header, defined in query_context.cpp): the sub-registry is constructed
    on first access, and the same instance is returned afterwards. *)
Definition fragment_mgr (q : QueryContext)
    : FragmentContextManager * QueryContext :=
  match _fragment_mgr q with
  | Some m => (m, q)
  | None =>
      (FragmentContextManager_new,
       with_fragment_mgr (Some FragmentContextManager_new) q)
  end.

(** Modelled from the spec: [QueryContext::cancel(status)] (declared in the
    header, defined in query_context.cpp): the status is forwarded to the
    fragment manager. *)
Definition cancel (status : Status) (q : QueryContext) : QueryContext :=
  let '(m, q') := fragment_mgr q in
  with_fragment_mgr (Some (FragmentContextManager_cancel status m)) q'.

(** ** Executions of the fragment counters *)

(** The operations on the two counters that take effect indivisibly.  A
    call of [increment_num_fragments] is an [Op_fetch_add_num_fragments]
    followed, possibly after operations of other threads, by an
    [Op_fetch_add_num_active]; a call of [count_down_fragments] is the single
    [fetch_sub] together with the comparison of the value it read. *)
Inductive atomic_op : Type :=
| Op_fetch_add_num_fragments
| Op_fetch_add_num_active
| Op_count_down.

#[global] Instance atomic_op_eq_dec : EqDecision atomic_op.
Proof. solve_decision. Defined.

(** One entry of the history of an execution. *)
Record event : Type := mkEvent {
  ev_op : atomic_op;
  ev_result : option bool;
  ev_before : QueryContext;
  ev_after : QueryContext
}.

Section Executions.

Variable w : Z.

Definition atomic_step (a : atomic_op) (q : QueryContext)
    : option bool * QueryContext :=
  match a with
  | Op_fetch_add_num_fragments => (None, fetch_add_num_fragments w q)
  | Op_fetch_add_num_active => (None, fetch_add_num_active_fragments w q)
  | Op_count_down => let '(b, q') := count_down_fragments w q in (Some b, q')
  end.

(** The history of the operations [t], in the order in which they take
    effect, from the state [q].  Every interleaving of the calls of any
    number of threads is such a sequence. *)
Fixpoint run_atomics (t : list atomic_op) (q : QueryContext) : list event :=
  match t with
  | [] => []
  | a :: t' =>
      let '(r, q') := atomic_step a q in
      mkEvent a r q q' :: run_atomics t' q'
  end.

(** The state after the operations [t]. *)
Definition final_state (t : list atomic_op) (q : QueryContext)
    : QueryContext :=
  fold_left (fun s a => snd (atomic_step a s)) t q.

End Executions.

(** The call of this entry returned [true]. *)
Definition returned_true (e : event) : Prop := ev_result e = Some true.

(** The entry is a count-down after which no fragment is active. *)
Definition reached_zero (e : event) : Prop :=
  ev_op e = Op_count_down /\ _num_active_fragments (ev_after e) = 0.

(** The entry is a count-down that took the active count from 1 to 0. *)
Definition one_to_zero (e : event) : Prop :=
  ev_op e = Op_count_down /\
  _num_active_fragments (ev_before e) = 1 /\
  _num_active_fragments (ev_after e) = 0.

#[global] Instance returned_true_dec e : Decision (returned_true e).
Proof. unfold returned_true. apply _. Defined.

#[global] Instance reached_zero_dec e : Decision (reached_zero e).
Proof. unfold reached_zero. apply _. Defined.

#[global] Instance one_to_zero_dec e : Decision (one_to_zero e).
Proof. unfold one_to_zero. apply _. Defined.

(** A value of type [size_t]. *)
Definition is_size_t (w : Z) (z : Z) : Prop := 0 <= z < 2 ^ w.

(** The number of occurrences of an operation in an execution. *)
Fixpoint count_ops (a : atomic_op) (t : list atomic_op) : Z :=
  match t with
  | [] => 0
  | b :: t' => (if decide (a = b) then 1 else 0) + count_ops a t'
  end.

(** How the calls of concurrent fragments interleave: every
    [increment_num_fragments] adds to [_num_fragments] before it adds to
    [_num_active_fragments], a fragment counts down only after its own
    increment has returned, and at most [total] fragments start. *)
Definition racing_discipline (total : Z) (t : list atomic_op) : Prop :=
  forall p, p `prefix_of` t ->
    count_ops Op_count_down p <= count_ops Op_fetch_add_num_active p /\
    count_ops Op_fetch_add_num_active p
      <= count_ops Op_fetch_add_num_fragments p /\
    count_ops Op_fetch_add_num_fragments p <= total.

(** ** The public interface as a whole *)

(** A call of a public member function of [QueryContext], with its
    arguments; [now] is the reading of the clock made by the call. *)
Inductive call : Type :=
| Call_set_exec_env (exec_env : ptr)
| Call_set_query_id (query_id : TUniqueId)
| Call_query_id
| Call_set_total_fragments (total_fragments : Z)
| Call_increment_num_fragments
| Call_count_down_fragments
| Call_is_finished
| Call_set_expire_seconds (expire_seconds : Z)
| Call_is_expired (now : Z)
| Call_is_dead
| Call_extend_lifetime (now : Z)
| Call_fragment_mgr
| Call_cancel (status : Status)
| Call_set_is_runtime_filter_coordinator (flag : bool)
| Call_object_pool
| Call_set_desc_tbl (desc_tbl : ptr)
| Call_desc_tbl.

(** What a call hands back to its caller. *)
Inductive retval : Type :=
| Ret_void
| Ret_bool (b : bool)
| Ret_id (id : TUniqueId)
| Ret_ptr (p : ptr)
| Ret_pool (p : ObjectPool)
| Ret_fragment_mgr (m : FragmentContextManager).

Definition exec_call (w : Z) (b : build) (c : call) (q : QueryContext)
    : outcome (retval * QueryContext) :=
  match c with
  | Call_set_exec_env p => Returns (Ret_void, set_exec_env p q)
  | Call_set_query_id id => Returns (Ret_void, set_query_id id q)
  | Call_query_id => Returns (Ret_id (query_id q), q)
  | Call_set_total_fragments n => Returns (Ret_void, set_total_fragments n q)
  | Call_increment_num_fragments =>
      Returns (Ret_void, increment_num_fragments w q)
  | Call_count_down_fragments =>
      let '(r, q') := count_down_fragments w q in Returns (Ret_bool r, q')
  | Call_is_finished => Returns (Ret_bool (is_finished q), q)
  | Call_set_expire_seconds e => Returns (Ret_void, set_expire_seconds e q)
  | Call_is_expired now => Returns (Ret_bool (is_expired now q), q)
  | Call_is_dead => Returns (Ret_bool (is_dead q), q)
  | Call_extend_lifetime now => Returns (Ret_void, extend_lifetime now q)
  | Call_fragment_mgr =>
      let '(m, q') := fragment_mgr q in Returns (Ret_fragment_mgr m, q')
  | Call_cancel st => Returns (Ret_void, cancel st q)
  | Call_set_is_runtime_filter_coordinator flag =>
      Returns (Ret_void, set_is_runtime_filter_coordinator flag q)
  | Call_object_pool => Returns (Ret_pool (object_pool q), q)
  | Call_set_desc_tbl p =>
      match set_desc_tbl b p q with
      | Returns q' => Returns (Ret_void, q')
      | Aborts => Aborts
      end
  | Call_desc_tbl =>
      match desc_tbl b q with
      | Returns p => Returns (Ret_ptr p, q)
      | Aborts => Aborts
      end
  end.

(** The state after a sequence of calls, unless one of them aborts. *)
Fixpoint run_calls (w : Z) (b : build) (cs : list call) (q : QueryContext)
    : outcome QueryContext :=
  match cs with
  | [] => Returns q
  | c :: cs' =>
      match exec_call w b c q with
      | Returns (_, q') => run_calls w b cs' q'
      | Aborts => Aborts
      end
  end.

Definition is_increment (c : call) : bool :=
  match c with Call_increment_num_fragments => true | _ => false end.

Definition is_count_down (c : call) : bool :=
  match c with Call_count_down_fragments => true | _ => false end.

Definition is_set_total_fragments (c : call) : bool :=
  match c with Call_set_total_fragments _ => true | _ => false end.

(** The number of calls of [cs] recognised by [f]. *)
Fixpoint count_calls (f : call -> bool) (cs : list call) : Z :=
  match cs with
  | [] => 0
  | c :: cs' => (if f c then 1 else 0) + count_calls f cs'
  end.

(** The calling discipline after setup: the expected number of fragments is
    not set again, no more than [total] fragments start, and at no point have
    more fragments finished than have started. *)
Definition disciplined (total : Z) (cs : list call) : Prop :=
  count_calls is_set_total_fragments cs = 0 /\
  forall p, p `prefix_of` cs ->
    count_calls is_count_down p <= count_calls is_increment p <= total.

(** The invariant of the fragment counters. *)
Definition counters_ok (q : QueryContext) : Prop :=
  _num_active_fragments q <= _num_fragments q <= _total_fragments q.

Definition is_set_desc_tbl (c : call) : bool :=
  match c with Call_set_desc_tbl _ => true | _ => false end.

(** The pointer given to the last [set_desc_tbl] of a sequence of calls, or
    [cur] when there is none. *)
Fixpoint last_set_desc_tbl (cs : list call) (cur : ptr) : ptr :=
  match cs with
  | [] => cur
  | Call_set_desc_tbl p :: cs' => last_set_desc_tbl cs' p
  | _ :: cs' => last_set_desc_tbl cs' cur
  end.

(** ** Sequences of deadline refreshes *)

(** The two calls that decide the deadline. *)
Inductive lifetime_call : Type :=
| LC_set_expire_seconds (expire_seconds : Z)
| LC_extend_lifetime (now : Z).

(** The deadline left by each [extend_lifetime()] of a sequence of calls, in
    order. *)
Fixpoint deadlines (cs : list lifetime_call) (q : QueryContext) : list Z :=
  match cs with
  | [] => []
  | LC_set_expire_seconds e :: cs' => deadlines cs' (set_expire_seconds e q)
  | LC_extend_lifetime now :: cs' =>
      let q' := extend_lifetime now q in
      _deadline q' :: deadlines cs' q'
  end.

(** The clock readings of the [extend_lifetime()] calls, in order. *)
Fixpoint nows (cs : list lifetime_call) : list Z :=
  match cs with
  | [] => []
  | LC_set_expire_seconds _ :: cs' => nows cs'
  | LC_extend_lifetime now :: cs' => now :: nows cs'
  end.

Definition is_int (z : Z) : Prop := - 2 ^ 31 <= z < 2 ^ 31.
Definition is_int64 (z : Z) : Prop := - 2 ^ 63 <= z < 2 ^ 63.

(** The arguments are representable and no addition overflows, where
    [expire] is the grace period in force before the calls. *)
Fixpoint no_overflow (cs : list lifetime_call) (expire : Z) : Prop :=
  match cs with
  | [] => True
  | LC_set_expire_seconds e :: cs' => is_int e /\ no_overflow cs' e
  | LC_extend_lifetime now :: cs' =>
      is_int64 now /\ is_int64 (now + expire * 1000000000) /\
      no_overflow cs' expire
  end.

(** No [set_expire_seconds] of the sequence shortens the grace period. *)
Fixpoint expire_never_shortened (cs : list lifetime_call) (expire : Z)
    : Prop :=
  match cs with
  | [] => True
  | LC_set_expire_seconds e :: cs' =>
      expire <= e /\ expire_never_shortened cs' e
  | LC_extend_lifetime _ :: cs' => expire_never_shortened cs' expire
  end.

(** ** QueryContextManager *)

(** The address of a [QueryContext] on the free store. *)
Abbreviation addr := positive (only parsing).

(** The two kinds of handle on a [QueryContext] that the header declares:
    [QueryContext*], the return type of [get_or_register], and
    [QueryContextPtr], the return type of [get] and the value type of the
    maps. *)
Inductive handle : Type :=
| RawPtr (a : addr)
| SharedPtr (a : addr).

(** The data members of [class QueryContextManager]; slot [i] of the two
    vectors is the live map and the second-chance (tombstone) map of shard
    [i], each from a query id to a [QueryContextPtr].  [_mutexes] has no
    counterpart: every operation below takes effect as one step, which is
    what the shard's lock provides. *)
Record QueryContextManager : Type := mkQueryContextManager {
  _context_maps : list (gmap TUniqueId addr);
  _second_chance_maps : list (gmap TUniqueId addr)
}.

(** The registry together with the free store, where each object carries
    the use count of its shared pointers, and with the [QueryContextPtr]
    copies currently held by callers. *)
Record world : Type := mkWorld {
  manager : QueryContextManager;
  heap : gmap addr (QueryContext * nat);
  held : gmultiset addr
}.

(** [_context_maps[i]] and [_second_chance_maps[i]]. *)
Definition context_map (i : nat) (s : world) : gmap TUniqueId addr :=
  default ∅ (_context_maps (manager s) !! i).

Definition second_chance_map (i : nat) (s : world) : gmap TUniqueId addr :=
  default ∅ (_second_chance_maps (manager s) !! i).

Definition with_context_map (i : nat) (cm : gmap TUniqueId addr) (s : world)
    : world :=
  mkWorld
    (mkQueryContextManager (<[i := cm]> (_context_maps (manager s)))
       (_second_chance_maps (manager s)))
    (heap s) (held s).

Definition with_second_chance_map (i : nat) (sm : gmap TUniqueId addr)
    (s : world) : world :=
  mkWorld
    (mkQueryContextManager (_context_maps (manager s))
       (<[i := sm]> (_second_chance_maps (manager s))))
    (heap s) (held s).

Definition with_heap (h : gmap addr (QueryContext * nat)) (s : world)
    : world :=
  mkWorld (manager s) h (held s).

Definition with_held (X : gmultiset addr) (s : world) : world :=
  mkWorld (manager s) (heap s) X.

(** Modelled from the spec: [QueryContextPtr] (exec/pipeline/pipeline_fwd.h
    is not part of the sources), a shared-ownership pointer.  A copy adds an
    owner to the object. *)
Definition heap_acquire (a : addr) (h : gmap addr (QueryContext * nat))
    : gmap addr (QueryContext * nat) :=
  match h !! a with
  | Some (c, n) => <[a := (c, S n)]> h
  | None => h
  end.

(** Modelled from the spec: the destruction of a [QueryContextPtr] removes
    an owner, and the object is destroyed with its last owner. *)
Definition heap_release (a : addr) (h : gmap addr (QueryContext * nat))
    : gmap addr (QueryContext * nat) :=
  match h !! a with
  | Some (c, S (S n)) => <[a := (c, S n)]> h
  | Some (c, _) => delete a h
  | None => h
  end.

(** A call, through a pointer to it, of a member function that changes the
    context at [a]. *)
Definition heap_update (a : addr) (f : QueryContext -> QueryContext)
    (h : gmap addr (QueryContext * nat)) : gmap addr (QueryContext * nat) :=
  match h !! a with
  | Some (c, n) => <[a := (f c, n)]> h
  | None => h
  end.

Definition heap_count (a : addr) (h : gmap addr (QueryContext * nat)) : nat :=
  match h !! a with
  | Some (_, n) => n
  | None => 0%nat
  end.

Definition use_count (a : addr) (s : world) : nat := heap_count a (heap s).

Definition allocated (a : addr) (s : world) : Prop := is_Some (heap s !! a).

(** [is_expired()] and [is_dead()] called through the pointer [a]; an entry
    of the maps owns its context, so the pointer of an entry is never
    dangling (see [consistent] below). *)
Definition is_expired_at (now : Z) (a : addr) (s : world) : bool :=
  match heap s !! a with
  | Some (c, _) => is_expired now c
  | None => false
  end.

Definition is_dead_at (a : addr) (s : world) : bool :=
  match heap s !! a with
  | Some (c, _) => is_dead c
  | None => false
  end.

(** Modelled from the spec: the constructor [QueryContextManager(int)] (only
    declared in the header): a fixed number of shards, all empty. *)
Definition QueryContextManager_new (shard_count : nat) : QueryContextManager :=
  mkQueryContextManager (replicate shard_count ∅) (replicate shard_count ∅).

Definition world_new (shard_count : nat) : world :=
  mkWorld (QueryContextManager_new shard_count) ∅ ∅.

Section Manager.

(** The hash of a query id ([util/hash_util.hpp], not part of the
    sources). *)
Variable hash : TUniqueId -> Z.

(** Modelled from the spec: shard selection, [hash(query_id) mod
    shard_count]. *)
Definition slot_of (s : world) (query_id : TUniqueId) : nat :=
  Z.to_nat (hash query_id mod Z.of_nat (length (_context_maps (manager s)))).

(** Modelled from the spec: the entry of [query_id] leaves the live map of
    shard [i] for its tombstone map with a fresh grace stamp.  The maps of
    the header hold the shared pointer alone, and the only expiry state of
    the declared classes is the deadline of the context, which the public
    interface of [QueryContext] sets by [extend_lifetime()] and reads by
    [is_expired()] only: the stamp is the deadline that [extend_lifetime()]
    sets, [now] being the clock reading of that call and the grace period the
    [_expire_seconds] of the context.  A tombstone already stored under the
    same id is replaced, which destroys the shared pointer it held. *)
Definition move_to_tombstone (i : nat) (query_id : TUniqueId) (a : addr)
    (now : Z) (s : world) : world :=
  let stamped := heap_update a (extend_lifetime now) (heap s) in
  let h :=
    match second_chance_map i s !! query_id with
    | Some b => heap_release b stamped
    | None => stamped
    end in
  with_heap h
    (with_second_chance_map i (<[query_id := a]> (second_chance_map i s))
       (with_context_map i (delete query_id (context_map i s)) s)).

(** Modelled from the spec: [QueryContextManager::remove] (declared in the
    header, defined in query_context.cpp): moves the entry, if present, from
    the live map into the tombstone map and stamps it.  The C++ function has
    the query id as its only parameter; [now] is the reading of
    [steady_clock] made by the [extend_lifetime()] call that stamps the
    context, an argument here as it is for [extend_lifetime] itself. *)
Definition remove (query_id : TUniqueId) (now : Z) (s : world) : world :=
  let i := slot_of s query_id in
  match context_map i s !! query_id with
  | Some a => move_to_tombstone i query_id a now s
  | None => s
  end.

(** Modelled from the spec: a new [QueryContext] for [query_id] is made and
    inserted into the live map of shard [i], its only owner. *)
Definition register_new (i : nat) (query_id : TUniqueId) (s : world)
    : addr * world :=
  let a := fresh (dom (heap s)) in
  (a,
   with_heap (<[a := (set_query_id query_id QueryContext_new, 1%nat)]> (heap s))
     (with_context_map i (<[query_id := a]> (context_map i s)) s)).

(** Modelled from the spec: [QueryContextManager::get_or_register] (declared
    in the header, defined in query_context.cpp): a hit in the live map
    returns the existing context; on a miss, a tombstone still within its
    grace period (not [is_expired()], whose reading of [steady_clock] is
    [now]) is revived into the live map; otherwise a new context is
    constructed and inserted.  The header gives the return type: a
    [QueryContext*], which is no owner of the context. *)
Definition get_or_register (query_id : TUniqueId) (now : Z) (s : world)
    : handle * world :=
  let i := slot_of s query_id in
  match context_map i s !! query_id with
  | Some a => (RawPtr a, s)
  | None =>
      match second_chance_map i s !! query_id with
      | Some a =>
          if is_expired_at now a s
          then let '(a', s') := register_new i query_id s in (RawPtr a', s')
          else
            (RawPtr a,
             with_context_map i (<[query_id := a]> (context_map i s))
               (with_second_chance_map i
                  (delete query_id (second_chance_map i s)) s))
      | None =>
          let '(a', s') := register_new i query_id s in (RawPtr a', s')
      end
  end.

(** Modelled from the spec: the caller receives a copy of the shared
    pointer stored for [a]. *)
Definition hand_out (a : addr) (s : world) : option handle * world :=
  (Some (SharedPtr a),
   with_held (held s ⊎ {[+ a +]}) (with_heap (heap_acquire a (heap s)) s)).

(** Modelled from the spec: [QueryContextManager::get] (declared in the
    header, defined in query_context.cpp): a lookup in the live map, falling
    back to the tombstone map; empty when the id is in neither.  The header
    gives the return type: a [QueryContextPtr]. *)
Definition get (query_id : TUniqueId) (s : world) : option handle * world :=
  let i := slot_of s query_id in
  match context_map i s !! query_id with
  | Some a => hand_out a s
  | None =>
      match second_chance_map i s !! query_id with
      | Some a => hand_out a s
      | None => (None, s)
      end
  end.

(** Modelled from the spec: a caller lets go of a [QueryContextPtr] it
    holds. *)
Definition release_handle (a : addr) (s : world) : world :=
  if decide (a ∈ held s)
  then with_held (held s ∖ {[+ a +]}) (with_heap (heap_release a (heap s)) s)
  else s.

(** Modelled from the spec: the first half of the reaper sweep, for one
    id: a context of the live map that is dead or expired moves to the
    tombstone map with a fresh stamp. *)
Definition retire_one (i : nat) (now : Z) (query_id : TUniqueId) (s : world)
    : world :=
  match context_map i s !! query_id with
  | Some a =>
      if is_dead_at a s || is_expired_at now a s
      then move_to_tombstone i query_id a now s
      else s
  | None => s
  end.

(** Modelled from the spec: the second half of the reaper sweep, for one
    id: a tombstone whose grace period has elapsed ([is_expired()] at the
    clock reading [now]) is removed, which destroys the shared pointer it
    held. *)
Definition prune_one (i : nat) (now : Z) (query_id : TUniqueId) (s : world)
    : world :=
  match second_chance_map i s !! query_id with
  | Some a =>
      if is_expired_at now a s
      then
        with_heap (heap_release a (heap s))
          (with_second_chance_map i
             (delete query_id (second_chance_map i s)) s)
      else s
  | None => s
  end.

(** Modelled from the spec: the reaper sweep of one shard, under its write
    lock: the retirements, then the pruning. *)
Definition sweep_slot (i : nat) (now : Z) (s : world) : world :=
  let s1 :=
    foldr (retire_one i now) s (map fst (map_to_list (context_map i s))) in
  foldr (prune_one i now) s1 (map fst (map_to_list (second_chance_map i s1))).

(** Modelled from the spec: the reaper sweep, one shard at a time. *)
Definition sweep (now : Z) (s : world) : world :=
  foldl (fun s' i => sweep_slot i now s') s
    (seq 0 (length (_context_maps (manager s)))).

(** What the callers of the registry can do. *)
Inductive manager_op : Type :=
| Do_get_or_register (query_id : TUniqueId) (now : Z)
| Do_get (query_id : TUniqueId)
| Do_remove (query_id : TUniqueId) (now : Z)
| Do_sweep (now : Z)
| Do_release (a : addr).

Definition manager_step (s : world) (o : manager_op) : world :=
  match o with
  | Do_get_or_register id now => snd (get_or_register id now s)
  | Do_get id => snd (get id s)
  | Do_remove id now => remove id now s
  | Do_sweep now => sweep now s
  | Do_release a => release_handle a s
  end.

Definition run_manager (os : list manager_op) (s : world) : world :=
  foldl manager_step s os.

End Manager.

(** The number of entries of a map whose shared pointer, read off the
    value by [f], points to [a]. *)
Definition refs_by {V : Type} (f : V -> addr) (a : addr)
    (m : gmap TUniqueId V) : nat :=
  size (filter (fun kv => f kv.2 = a) m).

Definition refs (a : addr) : gmap TUniqueId addr -> nat :=
  refs_by (fun b => b) a.

(** 1 when the pointer [o] is set and points to [a], 0 otherwise. *)
Definition points_to (o : option addr) (a : addr) : nat :=
  if decide (o = Some a) then 1%nat else 0%nat.

(** The number of map slots of the registry that own [a]. *)
Definition slots (a : addr) (s : world) : nat :=
  (sum_list_with (refs a) (_context_maps (manager s))
   + sum_list_with (refs a) (_second_chance_maps (manager s)))%nat.

(** The number of shared pointers to [a]: those in the maps and those held
    by callers. *)
Definition owners (a : addr) (s : world) : nat :=
  (slots a s + multiplicity a (held s))%nat.

(** There is at least one shard, and each has its two maps. *)
Definition well_formed (s : world) : Prop :=
  (0 < length (_context_maps (manager s)))%nat /\
  length (_context_maps (manager s)) =
    length (_second_chance_maps (manager s)).

(** No object of the free store is left without owner. *)
Definition no_zero (h : gmap addr (QueryContext * nat)) : Prop :=
  forall a c, h !! a <> Some (c, 0%nat).

(** The use counts are exact, and an object without owner is gone. *)
Definition consistent (s : world) : Prop :=
  well_formed s /\
  (forall a, use_count a s = owners a s) /\
  no_zero (heap s).





(** ** Tracer *)

(** The tracer options. *)
Record TracerOptions : Type := mkTracerOptions {
  jaeger_endpoint : string;
  jaeger_server_port : Z
}.

(** Modelled from the spec: spans and span contexts (the tracing library is
    not part of the sources).  A span is known by the order of its creation;
    its context identifies it; it has a name and at most one parent. *)
Definition SpanContext : Type := nat.
Definition Span : Type := nat.

Record SpanRecord : Type := mkSpanRecord {
  span_name : string;
  span_parent : option SpanContext
}.

Definition GetContext (span : Span) : SpanContext := span.

(** The data members of [class Tracer]; [_tracer] is the underlying tracer,
    of which the spans created so far are kept, in creation order. *)
Record Tracer : Type := mkTracer {
  _tracer : list SpanRecord;
  _tracer_options : TracerOptions
}.

(** Modelled from the spec: the constructor of [Tracer] (declared in the
    header, defined in tracer.cpp): no span has been created yet. *)
Definition Tracer_new (service_name : string) (tracer_opts : TracerOptions)
    : Tracer :=
  mkTracer [] tracer_opts.

(** Modelled from the spec: [Tracer::start_trace] (declared in the header,
    defined in tracer.cpp): creates a root span. *)
Definition start_trace (trace_name : string) (t : Tracer) : Span * Tracer :=
  (length (_tracer t),
   mkTracer (_tracer t ++ [mkSpanRecord trace_name None])
     (_tracer_options t)).

(** Modelled from the spec: [Tracer::add_span] on a span context (declared
    in the header, defined in tracer.cpp): creates a child span under the
    span of that context. *)
Definition add_span_ctx (name : string) (parent_ctx : SpanContext)
    (t : Tracer) : Span * Tracer :=
  (length (_tracer t),
   mkTracer (_tracer t ++ [mkSpanRecord name (Some parent_ctx)])
     (_tracer_options t)).

(** Modelled from the spec: [Tracer::add_span] on a span (declared in the
    header, defined in tracer.cpp): creates a child span under that span. *)
Definition add_span (name : string) (parent_span : Span) (t : Tracer)
    : Span * Tracer :=
  add_span_ctx name (GetContext parent_span) t.

(** The span has no parent. *)
Definition is_root (t : Tracer) (span : Span) : Prop :=
  exists r, _tracer t !! span = Some r /\ span_parent r = None.

(** The root reached from a span by following parent links, at most [fuel]
    of them. *)
Fixpoint root_of (fuel : nat) (t : Tracer) (span : Span) : option Span :=
  match _tracer t !! span with
  | None => None
  | Some r =>
      match span_parent r with
      | None => Some span
      | Some p =>
          match fuel with
          | O => None
          | S fuel' => root_of fuel' t p
          end
      end
  end.

(** The calls that create spans. *)
Inductive tracer_call : Type :=
| TC_start_trace (trace_name : string)
| TC_add_span (span_name : string) (parent_span : Span)
| TC_add_span_ctx (span_name : string) (parent_ctx : SpanContext).

Definition tracer_step (t : Tracer) (c : tracer_call) : Tracer :=
  match c with
  | TC_start_trace name => snd (start_trace name t)
  | TC_add_span name parent => snd (add_span name parent t)
  | TC_add_span_ctx name parent => snd (add_span_ctx name parent t)
  end.

Definition run_tracer (cs : list tracer_call) (t : Tracer) : Tracer :=
  foldl tracer_step t cs.

(** Every parent given to [add_span] is a span that the tracer, which has
    made [n] spans so far, created earlier. *)
Fixpoint known_parents (cs : list tracer_call) (n : nat) : Prop :=
  match cs with
  | [] => True
  | TC_start_trace _ :: cs' => known_parents cs' (S n)
  | TC_add_span _ p :: cs' => (p < n)%nat /\ known_parents cs' (S n)
  | TC_add_span_ctx _ p :: cs' => (p < n)%nat /\ known_parents cs' (S n)
  end.

(** Parent links point to spans created earlier. *)
Definition parents_older (t : Tracer) : Prop :=
  forall span r p,
    _tracer t !! span = Some r -> span_parent r = Some p -> (p < span)%nat.

(** ** A concrete node, for the examples *)

(** A hash of query ids (its low word) and a query id. *)
Definition example_hash (query_id : TUniqueId) : Z := lo query_id.
Definition example_id : TUniqueId := mkTUniqueId 1 2.

(** * Properties *)

Section CounterFacts.

Variable w : Z.
Hypothesis w_ge_16 : 16 <= w.

Lemma size_modulus_large : 65536 <= 2 ^ w.
Proof.
  change 65536 with (2 ^ 16). apply Z.pow_le_mono_r; lia.
Qed.

Lemma size_wrap_small z : is_size_t w z -> size_wrap w z = z.
Proof. intros H. unfold size_wrap. apply Z.mod_small. exact H. Qed.

Lemma size_wrap_is_size_t z : is_size_t w (size_wrap w z).
Proof.
  unfold size_wrap, is_size_t. apply Z.mod_pos_bound.
  pose proof size_modulus_large. lia.
Qed.

Lemma size_wrap_minus_one : size_wrap w (0 - 1) = 2 ^ w - 1.
Proof.
  pose proof size_modulus_large.
  unfold size_wrap.
  replace (0 - 1) with (2 ^ w - 1 + (-1) * 2 ^ w) by lia.
  rewrite Z.mod_add by lia. apply Z.mod_small. lia.
Qed.

End CounterFacts.

(** ** Liveness predicates *)

(** C2.  [is_dead()] is true exactly when no fragment is active and every
    expected fragment has registered; it implies [is_finished()], and it is
    false while some expected fragment has not registered, even when every
    registered fragment has finished. *)
Theorem is_dead_spec (q : QueryContext) :
  (is_dead q = true <->
     _num_active_fragments q = 0 /\ _num_fragments q = _total_fragments q) /\
  (is_dead q = true -> is_finished q = true) /\
  (_num_fragments q < _total_fragments q -> is_dead q = false) /\
  (is_finished q = true -> _num_fragments q < _total_fragments q ->
     is_dead q = false).
Proof.
  unfold is_dead, is_finished.
  split; [split |split; [|split]].
  - intros H. apply andb_true_iff in H. lia.
  - intros [Ha Hf]. apply andb_true_iff. lia.
  - intros H. apply andb_true_iff in H. tauto.
  - intros Hlt. apply andb_false_iff. right. lia.
  - intros _ Hlt. apply andb_false_iff. right. lia.
Qed.

(** ** The fragment counters *)

Section CountDown.

Variable w : Z.
Hypothesis w_ge_16 : 16 <= w.

Lemma count_down_fragments_eq (q : QueryContext) :
  count_down_fragments w q =
    (_num_active_fragments q =? 1,
     with_num_active_fragments
       (size_wrap w (_num_active_fragments q - 1)) q).
Proof. reflexivity. Qed.

Lemma size_wrap_pred_zero (z : Z) :
  is_size_t w z -> (size_wrap w (z - 1) = 0 <-> z = 1).
Proof.
  pose proof (size_modulus_large w w_ge_16) as HM.
  intros [Hlo Hhi]. split.
  - intros Hz. destruct (decide (z = 0)) as [->|Hnz].
    + rewrite (size_wrap_minus_one w w_ge_16) in Hz. lia.
    + rewrite size_wrap_small in Hz by (unfold is_size_t; lia). lia.
  - intros ->. unfold size_wrap. simpl. apply Z.mod_0_l. lia.
Qed.

(** C10.  A count-down on a context without active fragments returns
    [false] and wraps the counter around to [2^w - 1], the largest
    [size_t]; afterwards the context is neither finished nor dead. *)
Theorem count_down_fragments_underflow (q : QueryContext) :
  _num_active_fragments q = 0 ->
  fst (count_down_fragments w q) = false /\
  _num_active_fragments (snd (count_down_fragments w q)) = 2 ^ w - 1 /\
  (forall z, is_size_t w z ->
     z <= _num_active_fragments (snd (count_down_fragments w q))) /\
  is_finished (snd (count_down_fragments w q)) = false /\
  is_dead (snd (count_down_fragments w q)) = false.
Proof.
  intros H0. rewrite count_down_fragments_eq. simpl.
  rewrite H0. rewrite (size_wrap_minus_one w w_ge_16).
  pose proof (size_modulus_large w w_ge_16) as HM.
  unfold is_finished, is_dead, is_size_t. simpl.
  repeat split.
  - intros z Hz. lia.
  - apply Z.eqb_neq. lia.
  - apply andb_false_iff. left. apply Z.eqb_neq. lia.
Qed.

End CountDown.

Lemma filter_iff_on {A : Type} (P1 P2 : A -> Prop)
    `{!forall x, Decision (P1 x), !forall x, Decision (P2 x)} (l : list A) :
  Forall (fun x => P1 x <-> P2 x) l -> filter P1 l = filter P2 l.
Proof.
  induction 1 as [|x l Hx _ IH]; [reflexivity|].
  rewrite !filter_cons, IH.
  destruct (decide (P1 x)), (decide (P2 x)); tauto.
Qed.

Lemma filter_none {A : Type} (P : A -> Prop) `{!forall x, Decision (P x)}
    (l : list A) :
  Forall (fun x => ~ P x) l -> filter P l = [].
Proof.
  induction 1 as [|x l Hx _ IH]; [reflexivity|].
  rewrite filter_cons_False by exact Hx. exact IH.
Qed.

Section LastFinisher.

Variable w : Z.
Hypothesis w_ge_16 : 16 <= w.

Lemma atomic_step_num_active_is_size_t (a : atomic_op) (q : QueryContext) :
  is_size_t w (_num_active_fragments q) ->
  is_size_t w (_num_active_fragments (snd (atomic_step w a q))).
Proof.
  intros Hq. destruct a; simpl; try exact Hq;
    apply (size_wrap_is_size_t w w_ge_16).
Qed.

(** Every entry of a history records one step of the counters, taken from
    a state whose active count is a [size_t]. *)
Lemma run_atomics_entry (t : list atomic_op) (q : QueryContext) (e : event) :
  is_size_t w (_num_active_fragments q) ->
  e ∈ run_atomics w t q ->
  is_size_t w (_num_active_fragments (ev_before e)) /\
  atomic_step w (ev_op e) (ev_before e) = (ev_result e, ev_after e).
Proof.
  revert q. induction t as [|a t IH]; intros q Hq He; simpl in He.
  - apply elem_of_nil in He. destruct He.
  - destruct (atomic_step w a q) as [r q'] eqn:Hstep.
    apply elem_of_cons in He. destruct He as [->|He].
    + simpl. split; [exact Hq | exact Hstep].
    + apply (IH q'); [|exact He].
      replace q' with (snd (atomic_step w a q)) by (rewrite Hstep; reflexivity).
      apply atomic_step_num_active_is_size_t. exact Hq.
Qed.

Lemma step_returned_true_iff (e : event) :
  atomic_step w (ev_op e) (ev_before e) = (ev_result e, ev_after e) ->
  (returned_true e <-> one_to_zero e).
Proof.
  destruct e as [a r q q']. unfold returned_true, one_to_zero. simpl.
  destruct a; simpl; intros Hstep; inversion Hstep; subst; clear Hstep.
  - split; [discriminate | intros [? _]; discriminate].
  - split; [discriminate | intros [? _]; discriminate].
  - split.
    + intros Hr. injection Hr as Hr. apply Z.eqb_eq in Hr.
      rewrite Hr. simpl. repeat split.
    + intros (_ & H1 & _). rewrite H1. reflexivity.
Qed.

Lemma step_reached_zero_iff (e : event) :
  is_size_t w (_num_active_fragments (ev_before e)) ->
  atomic_step w (ev_op e) (ev_before e) = (ev_result e, ev_after e) ->
  (one_to_zero e <-> reached_zero e).
Proof.
  intros Hsz Hstep. unfold one_to_zero, reached_zero. split.
  - tauto.
  - intros [Hop Hz]. repeat split; try assumption.
    rewrite Hop in Hstep. simpl in Hstep. inversion Hstep as [[Hr Ha]].
    rewrite <- Ha in Hz. simpl in Hz.
    apply size_wrap_pred_zero in Hz; assumption.
Qed.

Lemma filter_returned_true_reached_zero (t : list atomic_op)
    (q : QueryContext) :
  is_size_t w (_num_active_fragments q) ->
  filter returned_true (run_atomics w t q) =
  filter reached_zero (run_atomics w t q).
Proof.
  intros Hq. apply filter_iff_on.
  apply Forall_forall. intros e He.
  destruct (run_atomics_entry t q e Hq He) as [Hsz Hstep].
  rewrite (step_returned_true_iff e Hstep).
  apply step_reached_zero_iff; assumption.
Qed.

(** C1, as amended.  [count_down_fragments()] is one indivisible decrement
    of the active count (modulo [2^w]) and returns [true] exactly when it
    takes the count from 1 to 0.  In every execution, whatever the
    interleaving, the calls that return [true] are exactly the count-downs
    after which the active count is zero: one call per arrival at zero.
    When a count-down brings the count to zero and no other count-down of
    the execution does, exactly one call returns [true], that one. *)
Theorem count_down_fragments_last_finisher (q : QueryContext)
    (t : list atomic_op) :
  is_size_t w (_num_active_fragments q) ->
  (snd (count_down_fragments w q) =
     with_num_active_fragments
       (size_wrap w (_num_active_fragments q - 1)) q /\
   (fst (count_down_fragments w q) = true <->
      _num_active_fragments q = 1 /\
      _num_active_fragments (snd (count_down_fragments w q)) = 0)) /\
  (forall e, e ∈ run_atomics w t q ->
     (returned_true e <-> one_to_zero e) /\
     (returned_true e <-> reached_zero e)) /\
  filter returned_true (run_atomics w t q) =
    filter reached_zero (run_atomics w t q) /\
  (forall h e h',
     run_atomics w t q = h ++ e :: h' ->
     Forall (fun e' => ~ reached_zero e') h ->
     Forall (fun e' => ~ reached_zero e') h' ->
     reached_zero e ->
     filter returned_true (run_atomics w t q) = [e]).
Proof.
  intros Hq. split; [|split; [|split]].
  - split; [reflexivity|]. simpl. split.
    + intros H1. apply Z.eqb_eq in H1. rewrite H1. split; reflexivity.
    + intros [H1 _]. rewrite H1. reflexivity.
  - intros e He.
    destruct (run_atomics_entry t q e Hq He) as [Hsz Hstep].
    pose proof (step_returned_true_iff e Hstep) as H1.
    pose proof (step_reached_zero_iff e Hsz Hstep) as H2.
    split; [exact H1 | rewrite H1; exact H2].
  - apply filter_returned_true_reached_zero. exact Hq.
  - intros h e h' Hrun Hh Hh' He.
    rewrite filter_returned_true_reached_zero by exact Hq.
    rewrite Hrun, filter_app, filter_cons_True by exact He.
    rewrite (filter_none reached_zero h) by exact Hh.
    rewrite (filter_none reached_zero h') by exact Hh'.
    reflexivity.
Qed.

End LastFinisher.

Section RoundTrip.

Variable w : Z.
Hypothesis w_ge_16 : 16 <= w.

Lemma increment_num_fragments_counters (q : QueryContext) :
  is_size_t w (_num_fragments q + 1) ->
  is_size_t w (_num_active_fragments q + 1) ->
  _num_fragments (increment_num_fragments w q) = _num_fragments q + 1 /\
  _num_active_fragments (increment_num_fragments w q) =
    _num_active_fragments q + 1 /\
  _total_fragments (increment_num_fragments w q) = _total_fragments q.
Proof.
  intros Hf Ha. unfold increment_num_fragments. simpl.
  rewrite !size_wrap_small by assumption. repeat split.
Qed.

Lemma count_down_fragments_counters (q : QueryContext) :
  is_size_t w (_num_active_fragments q - 1) ->
  fst (count_down_fragments w q) = (_num_active_fragments q =? 1) /\
  _num_fragments (snd (count_down_fragments w q)) = _num_fragments q /\
  _num_active_fragments (snd (count_down_fragments w q)) =
    _num_active_fragments q - 1 /\
  _total_fragments (snd (count_down_fragments w q)) = _total_fragments q.
Proof.
  intros Ha. simpl. rewrite size_wrap_small by assumption. repeat split.
Qed.

(** C5.  On a context in which no fragment has registered yet, with
    [total_fragments = 3]: after three [increment_num_fragments] the context
    is not finished; of the three [count_down_fragments] that follow, the
    first two return [false] and the third returns [true], after which the
    context is finished and dead. *)
Theorem three_fragments_round_trip (q : QueryContext) :
  _num_fragments q = 0 ->
  _num_active_fragments q = 0 ->
  let q0 := set_total_fragments 3 q in
  let q3 :=
    increment_num_fragments w
      (increment_num_fragments w (increment_num_fragments w q0)) in
  let r1 := count_down_fragments w q3 in
  let r2 := count_down_fragments w (snd r1) in
  let r3 := count_down_fragments w (snd r2) in
  is_finished q3 = false /\
  fst r1 = false /\ fst r2 = false /\ fst r3 = true /\
  is_finished (snd r3) = true /\ is_dead (snd r3) = true.
Proof.
  intros Hf Ha q0 q3 r1 r2 r3.
  pose proof (size_modulus_large w w_ge_16) as HM.
  assert (Hq3 : _num_fragments q3 = 3 /\ _num_active_fragments q3 = 3 /\
                _total_fragments q3 = 3).
  { subst q3.
    destruct (increment_num_fragments_counters q0) as (F1 & A1 & T1);
      [subst q0; simpl; rewrite ?Hf, ?Ha; unfold is_size_t; lia ..|].
    destruct (increment_num_fragments_counters
                (increment_num_fragments w q0)) as (F2 & A2 & T2);
      [rewrite ?F1, ?A1; subst q0; simpl; rewrite ?Hf, ?Ha;
       unfold is_size_t; lia ..|].
    destruct (increment_num_fragments_counters
                (increment_num_fragments w (increment_num_fragments w q0)))
      as (F3 & A3 & T3);
      [rewrite ?F2, ?A2, ?F1, ?A1; subst q0; simpl; rewrite ?Hf, ?Ha;
       unfold is_size_t; lia ..|].
    rewrite F3, A3, T3, F2, A2, T2, F1, A1, T1. subst q0. simpl.
    rewrite Hf, Ha. repeat split. }
  destruct Hq3 as (H3f & H3a & H3t).
  destruct (count_down_fragments_counters q3) as (R1 & F1 & A1 & T1).
  { rewrite H3a. unfold is_size_t. lia. }
  fold r1 in R1, F1, A1, T1. rewrite H3a in R1, A1.
  destruct (count_down_fragments_counters (snd r1)) as (R2 & F2 & A2 & T2).
  { rewrite A1. unfold is_size_t. lia. }
  fold r2 in R2, F2, A2, T2. rewrite A1 in R2, A2.
  destruct (count_down_fragments_counters (snd r2)) as (R3 & F3 & A3 & T3).
  { rewrite A2. unfold is_size_t. lia. }
  fold r3 in R3, F3, A3, T3. rewrite A2 in R3, A3.
  unfold is_finished, is_dead.
  rewrite H3a, R1, R2, R3, A3, F3, F2, F1, H3f, T3, T2, T1, H3t.
  repeat split.
Qed.

End RoundTrip.

(** ** The invariant of the counters *)

Section CountersInvariant.

Variable w : Z.
Hypothesis w_ge_16 : 16 <= w.

(** Apart from the two counter operations and [set_total_fragments], no
    call touches the counters. *)
Lemma exec_call_other_counters (b : build) (c : call) (q q' : QueryContext)
    (r : retval) :
  is_increment c = false ->
  is_count_down c = false ->
  is_set_total_fragments c = false ->
  exec_call w b c q = Returns (r, q') ->
  _num_fragments q' = _num_fragments q /\
  _num_active_fragments q' = _num_active_fragments q /\
  _total_fragments q' = _total_fragments q.
Proof.
  intros Hi Hd Hs Hex.
  destruct c; simpl in *; try discriminate;
    try (injection Hex as _ <-; solve [repeat split]).
  - unfold fragment_mgr in Hex.
    destruct (_fragment_mgr q); injection Hex as _ <-; repeat split.
  - injection Hex as _ <-. unfold cancel, fragment_mgr.
    destruct (_fragment_mgr q); repeat split.
  - unfold set_desc_tbl in Hex.
    destruct (DCHECK b _); [|discriminate].
    injection Hex as _ <-. repeat split.
  - unfold desc_tbl in Hex.
    destruct (DCHECK b _); [|discriminate].
    injection Hex as _ <-. repeat split.
Qed.

Lemma count_calls_nonneg (f : call -> bool) (cs : list call) :
  0 <= count_calls f cs.
Proof. induction cs as [|c cs IH]; simpl; [lia | destruct (f c); lia]. Qed.

(** The counters after a run are the numbers of calls made, as long as
    nothing wraps around. *)
Lemma run_calls_counters (b : build) (cs : list call) (q q' : QueryContext) :
  run_calls w b cs q = Returns q' ->
  count_calls is_set_total_fragments cs = 0 ->
  0 <= _num_active_fragments q -> 0 <= _num_fragments q ->
  (forall p, p `prefix_of` cs ->
     0 <= _num_active_fragments q
          + count_calls is_increment p - count_calls is_count_down p /\
     _num_active_fragments q + count_calls is_increment p < 2 ^ w /\
     _num_fragments q + count_calls is_increment p < 2 ^ w) ->
  _num_fragments q' = _num_fragments q + count_calls is_increment cs /\
  _num_active_fragments q' =
    _num_active_fragments q
    + count_calls is_increment cs - count_calls is_count_down cs /\
  _total_fragments q' = _total_fragments q.
Proof.
  revert q. induction cs as [|c cs IH]; intros q Hrun Hset Ha Hf Hpre.
  - simpl in *. injection Hrun as <-. lia.
  - simpl in Hrun.
    destruct (exec_call w b c q) as [[r q1]|] eqn:Hex; [|discriminate].
    pose proof (count_calls_nonneg is_set_total_fragments cs) as Hnn.
    pose proof (Hpre [c] (prefix_cons c [] cs (prefix_nil cs))) as Hc.
    cbn [count_calls] in Hset, Hc.
    assert (Hq1 :
      _num_fragments q1 =
        _num_fragments q + (if is_increment c then 1 else 0) /\
      _num_active_fragments q1 =
        _num_active_fragments q + (if is_increment c then 1 else 0)
        - (if is_count_down c then 1 else 0) /\
      _total_fragments q1 = _total_fragments q).
    { destruct (is_set_total_fragments c) eqn:Hs; [lia|].
      destruct (is_increment c) eqn:Hi; [|destruct (is_count_down c) eqn:Hd].
      - destruct c; try discriminate. cbn in Hex, Hc.
        injection Hex as _ <-.
        destruct (increment_num_fragments_counters w q) as (F & A & T);
          unfold is_size_t; cbn [is_count_down]; lia.
      - destruct c; try discriminate. cbn in Hex, Hc.
        injection Hex as _ <-.
        destruct (count_down_fragments_counters w q) as (_ & F & A & T);
          [unfold is_size_t; lia|]. cbn in F, A, T. cbn. lia.
      - pose proof (exec_call_other_counters b c q q1 r Hi Hd Hs Hex). lia. }
    destruct Hq1 as (F1 & A1 & T1).
    destruct (IH q1 Hrun) as (F & A & T).
    + destruct (is_set_total_fragments c); lia.
    + destruct (is_increment c) in *; destruct (is_count_down c) in *; lia.
    + destruct (is_increment c) in *; lia.
    + intros p Hp.
      pose proof (Hpre (c :: p) (prefix_cons c p cs Hp)) as Hcp.
      cbn [count_calls] in Hcp.
      destruct (is_increment c) in *; destruct (is_count_down c) in *; lia.
    + cbn [count_calls].
      destruct (is_increment c) in *; destruct (is_count_down c) in *; lia.
Qed.

Lemma disciplined_prefix (total : Z) (cs p : list call) :
  disciplined total cs -> p `prefix_of` cs -> disciplined total p.
Proof.
  intros [Hset Hpre] Hp. split.
  - destruct Hp as [k ->].
    assert (Happ : forall l1 l2,
      count_calls is_set_total_fragments (l1 ++ l2) =
      count_calls is_set_total_fragments l1
      + count_calls is_set_total_fragments l2).
    { induction l1 as [|x l1 IH]; intros l2; simpl; [lia|]. rewrite IH. lia. }
    rewrite Happ in Hset.
    pose proof (count_calls_nonneg is_set_total_fragments p).
    pose proof (count_calls_nonneg is_set_total_fragments k). lia.
  - intros p' Hp'. apply Hpre. etrans; eassumption.
Qed.

(** C4.  From a context set up for [total_fragments] fragments, none of
    which has registered yet, and under the calling discipline (at most
    [total_fragments] increments, never more count-downs than increments,
    [total_fragments] not set again), the counters satisfy
    [num_active_fragments <= num_fragments <= total_fragments] after every
    call of the public interface. *)
Theorem counters_invariant (b : build) (q q' : QueryContext)
    (cs p : list call) :
  is_size_t w (_total_fragments q) ->
  _num_fragments q = 0 ->
  _num_active_fragments q = 0 ->
  disciplined (_total_fragments q) cs ->
  p `prefix_of` cs ->
  run_calls w b p q = Returns q' ->
  counters_ok q' /\
  _num_fragments q' = count_calls is_increment p /\
  _num_active_fragments q' =
    count_calls is_increment p - count_calls is_count_down p /\
  _total_fragments q' = _total_fragments q.
Proof.
  intros [Ht0 HtM] Hf Ha Hdisc Hp Hrun.
  destruct (disciplined_prefix _ _ _ Hdisc Hp) as [Hset Hpre].
  destruct (run_calls_counters b p q q' Hrun Hset) as (F & A & T).
  - lia.
  - lia.
  - intros p' Hp'. specialize (Hpre p' Hp'). lia.
  - specialize (Hpre p (reflexivity p)).
    pose proof (count_calls_nonneg is_count_down p).
    unfold counters_ok. rewrite F, A, T, Hf, Ha. lia.
Qed.

End CountersInvariant.

Section RacingIncrements.

Variable w : Z.
Hypothesis w_ge_16 : 16 <= w.

Lemma count_ops_nonneg (a : atomic_op) (t : list atomic_op) :
  0 <= count_ops a t.
Proof.
  induction t as [|b t IH]; simpl; [lia|].
  destruct (decide (a = b)); lia.
Qed.

Lemma atomic_step_counters (a : atomic_op) (q : QueryContext) :
  is_size_t w (_num_fragments q + count_ops Op_fetch_add_num_fragments [a]) ->
  is_size_t w (_num_active_fragments q
               + count_ops Op_fetch_add_num_active [a]
               - count_ops Op_count_down [a]) ->
  _num_fragments (snd (atomic_step w a q)) =
    _num_fragments q + count_ops Op_fetch_add_num_fragments [a] /\
  _num_active_fragments (snd (atomic_step w a q)) =
    _num_active_fragments q + count_ops Op_fetch_add_num_active [a]
    - count_ops Op_count_down [a] /\
  _total_fragments (snd (atomic_step w a q)) = _total_fragments q.
Proof.
  intros Hf Ha.
  destruct a; cbn [count_ops] in *;
    repeat (case_decide; try discriminate; try congruence);
    cbn -[Z.add Z.sub size_wrap is_size_t].
  - rewrite size_wrap_small; [lia|].
    replace (_num_fragments q + 1) with (_num_fragments q + (1 + 0)) by lia.
    exact Hf.
  - rewrite size_wrap_small; [lia|].
    replace (_num_active_fragments q + 1)
      with (_num_active_fragments q + (1 + 0) - (0 + 0)) by lia.
    exact Ha.
  - rewrite size_wrap_small; [lia|].
    replace (_num_active_fragments q - 1)
      with (_num_active_fragments q + (0 + 0) - (1 + 0)) by lia.
    exact Ha.
Qed.

Lemma final_state_counters (t : list atomic_op) (q : QueryContext) :
  0 <= _num_active_fragments q -> 0 <= _num_fragments q ->
  (forall p, p `prefix_of` t ->
     0 <= _num_active_fragments q
          + count_ops Op_fetch_add_num_active p - count_ops Op_count_down p /\
     _num_active_fragments q + count_ops Op_fetch_add_num_active p < 2 ^ w /\
     _num_fragments q + count_ops Op_fetch_add_num_fragments p < 2 ^ w) ->
  _num_fragments (final_state w t q) =
    _num_fragments q + count_ops Op_fetch_add_num_fragments t /\
  _num_active_fragments (final_state w t q) =
    _num_active_fragments q
    + count_ops Op_fetch_add_num_active t - count_ops Op_count_down t /\
  _total_fragments (final_state w t q) = _total_fragments q.
Proof.
  revert q. induction t as [|a t IH]; intros q Ha Hf Hpre.
  - cbn. lia.
  - pose proof (Hpre [a] (prefix_cons a [] t (prefix_nil t))) as Hc.
    pose proof (count_ops_nonneg Op_fetch_add_num_fragments [a]) as N1.
    pose proof (count_ops_nonneg Op_fetch_add_num_active [a]) as N2.
    pose proof (count_ops_nonneg Op_count_down [a]) as N3.
    destruct (atomic_step_counters a q) as (F1 & A1 & T1);
      [unfold is_size_t; lia ..|].
    change (final_state w (a :: t) q)
      with (final_state w t (snd (atomic_step w a q))).
    assert (Hcons : forall b l,
      count_ops b (a :: l) = count_ops b [a] + count_ops b l).
    { intros b l. cbn [count_ops]. lia. }
    destruct (IH (snd (atomic_step w a q))) as (F & A & T).
    + lia.
    + lia.
    + intros p Hp.
      pose proof (Hpre (a :: p) (prefix_cons a p t Hp)) as Hcp.
      rewrite !(Hcons _ p) in Hcp. lia.
    + rewrite !(Hcons _ t). lia.
Qed.

(** X7.  The invariant at the grain of the atomic operations: however the
    increments and count-downs of concurrent fragments interleave, the
    counters satisfy [num_active <= num_fragments <= total] after every
    single atomic operation. *)
Lemma racing_increments_keep_counters_ok (q : QueryContext)
    (t p : list atomic_op) :
  is_size_t w (_total_fragments q) ->
  _num_fragments q = 0 ->
  _num_active_fragments q = 0 ->
  racing_discipline (_total_fragments q) t ->
  p `prefix_of` t ->
  counters_ok (final_state w p q).
Proof.
  intros [Ht0 HtM] Hf Ha Hd Hp.
  destruct (final_state_counters p q) as (F & A & T).
  - lia.
  - lia.
  - intros p' Hp'.
    destruct (Hd p') as (D1 & D2 & D3); [etrans; eassumption|].
    pose proof (count_ops_nonneg Op_count_down p'). lia.
  - destruct (Hd p Hp) as (D1 & D2 & D3).
    pose proof (count_ops_nonneg Op_count_down p).
    unfold counters_ok. rewrite F, A, T, Hf, Ha. lia.
Qed.

End RacingIncrements.

(** C1, counterexample.  The last-finisher signal is given once per
    arrival at zero, not once per context: on a new context, when a fragment
    finishes before the next one starts, each of the two calls of
    [count_down_fragments] returns [true]. *)
Lemma last_finisher_signalled_per_arrival :
  let r1 :=
    count_down_fragments 64 (increment_num_fragments 64 QueryContext_new) in
  let r2 :=
    count_down_fragments 64 (increment_num_fragments 64 (snd r1)) in
  let t :=
    [Op_fetch_add_num_fragments; Op_fetch_add_num_active; Op_count_down;
     Op_fetch_add_num_fragments; Op_fetch_add_num_active; Op_count_down] in
  fst r1 = true /\
  fst r2 = true /\
  final_state 64 t QueryContext_new = snd r2 /\
  map ev_result (run_atomics 64 t QueryContext_new) =
    [None; None; Some true; None; None; Some true] /\
  length (filter returned_true (run_atomics 64 t QueryContext_new)) = 2%nat.
Proof.
  intros r1 r2 t.
  split; [reflexivity|]. split; [reflexivity|]. split; [reflexivity|].
  split; [reflexivity|]. vm_compute. reflexivity.
Qed.

(** ** The deadline *)

Lemma int64_wrap_small (z : Z) : is_int64 z -> int64_wrap z = z.
Proof.
  unfold is_int64, int64_wrap. intros H.
  rewrite Z.mod_small by lia. lia.
Qed.

Lemma s_to_ns_small (e : Z) : is_int e -> s_to_ns e = e * 1000000000.
Proof.
  unfold is_int, s_to_ns. intros H. apply int64_wrap_small.
  unfold is_int64. lia.
Qed.

Lemma extend_lifetime_deadline (now : Z) (q : QueryContext) :
  is_int (_expire_seconds q) ->
  is_int64 (now + _expire_seconds q * 1000000000) ->
  _deadline (extend_lifetime now q) =
    ns_to_ms (now + _expire_seconds q * 1000000000).
Proof.
  intros He Hs. unfold extend_lifetime. simpl.
  rewrite s_to_ns_small by exact He.
  rewrite int64_wrap_small by exact Hs. reflexivity.
Qed.

Lemma ns_to_ms_mono (a b : Z) : a <= b -> ns_to_ms a <= ns_to_ms b.
Proof. intros H. unfold ns_to_ms. apply Z.quot_le_mono; lia. Qed.

(** Every deadline of a run is at least the one that a refresh at an
    earlier time, with the grace period then in force, would have set. *)
Lemma deadlines_lower_bound (cs : list lifetime_call) (q : QueryContext)
    (lo : Z) :
  is_int (_expire_seconds q) ->
  no_overflow cs (_expire_seconds q) ->
  expire_never_shortened cs (_expire_seconds q) ->
  Forall (fun n => lo <= n) (nows cs) ->
  Forall (fun d => ns_to_ms (lo + _expire_seconds q * 1000000000) <= d)
    (deadlines cs q).
Proof.
  revert q. induction cs as [|[e|now] cs IH]; intros q He Hno Hex Hlo.
  - constructor.
  - cbn [deadlines nows no_overflow expire_never_shortened] in *. destruct Hno as [Hie Hno]. destruct Hex as [Hle Hex].
    specialize (IH (set_expire_seconds e q) Hie Hno Hex Hlo).
    simpl in IH. eapply Forall_impl; [exact IH|].
    intros d Hd. simpl in Hd. etrans; [|exact Hd].
    apply ns_to_ms_mono. lia.
  - cbn [deadlines nows no_overflow expire_never_shortened] in *. destruct Hno as (Hn & Hs & Hno).
    apply Forall_cons in Hlo. destruct Hlo as [Hlo1 Hlo].
    constructor.
    + rewrite extend_lifetime_deadline by assumption.
      apply ns_to_ms_mono. lia.
    + apply (IH (extend_lifetime now q)); assumption.
Qed.

(** C3, as amended.  When no [set_expire_seconds] between the calls shortens
    the grace period, the deadlines set by [extend_lifetime()] calls at
    non-decreasing clock readings never decrease. *)
Theorem extend_lifetime_monotone (cs : list lifetime_call)
    (q : QueryContext) :
  is_int (_expire_seconds q) ->
  no_overflow cs (_expire_seconds q) ->
  expire_never_shortened cs (_expire_seconds q) ->
  StronglySorted Z.le (nows cs) ->
  StronglySorted Z.le (deadlines cs q).
Proof.
  revert q. induction cs as [|[e|now] cs IH]; intros q He Hno Hex Hsorted.
  - constructor.
  - cbn [deadlines nows no_overflow expire_never_shortened] in *. destruct Hno as [Hie Hno]. destruct Hex as [Hle Hex].
    apply IH; assumption.
  - cbn [deadlines nows no_overflow expire_never_shortened] in *. destruct Hno as (Hn & Hs & Hno).
    apply StronglySorted_inv in Hsorted. destruct Hsorted as [Hsorted Hall].
    constructor.
    + apply IH; assumption.
    + rewrite extend_lifetime_deadline by assumption.
      apply (deadlines_lower_bound cs (extend_lifetime now q) now);
        assumption.
Qed.

(** C3, counterexample.  With the grace period lowered from 100 s to 1 s
    between two refreshes one second apart, the second refresh moves the
    deadline back from 100000 ms to 2000 ms. *)
Lemma extend_lifetime_deadline_decreases :
  let cs := [LC_set_expire_seconds 100; LC_extend_lifetime 0;
             LC_set_expire_seconds 1; LC_extend_lifetime 1000000000] in
  is_int (_expire_seconds QueryContext_new) /\
  no_overflow cs (_expire_seconds QueryContext_new) /\
  StronglySorted Z.lt (nows cs) /\
  deadlines cs QueryContext_new = [100000; 2000] /\
  ~ StronglySorted Z.le (deadlines cs QueryContext_new).
Proof.
  intros cs. split; [|split; [|split; [|split]]].
  - unfold is_int. simpl. lia.
  - unfold cs. simpl. unfold is_int, is_int64. lia.
  - unfold cs. simpl. repeat constructor.
  - reflexivity.
  - intros H. change (deadlines cs QueryContext_new) with [100000; 2000] in H.
    apply StronglySorted_inv in H. destruct H as [_ H].
    apply Forall_cons in H. destruct H as [H _]. lia.
Qed.

(** ** The descriptor table *)

(** C6, as amended.  In a debug build, [set_desc_tbl] on a context whose
    descriptor table is already set and [desc_tbl()] on a context whose
    table is not set abort the process.  In a build without debug
    assertions neither misuse is detected: [set_desc_tbl] overwrites the
    pointer and [desc_tbl()] returns the stored pointer, null when none was
    set. *)
Theorem desc_tbl_checked_in_debug_only (q : QueryContext) (d : ptr) :
  (_desc_tbl q <> nullptr -> set_desc_tbl Debug d q = Aborts) /\
  (_desc_tbl q = nullptr -> desc_tbl Debug q = Aborts) /\
  (forall d1 q1, d1 <> nullptr ->
     set_desc_tbl Debug d1 q = Returns q1 ->
     set_desc_tbl Debug d q1 = Aborts) /\
  set_desc_tbl Release d q = Returns (with_desc_tbl d q) /\
  desc_tbl Release q = Returns (_desc_tbl q).
Proof.
  unfold set_desc_tbl, desc_tbl, DCHECK.
  split; [|split; [|split; [|split]]].
  - intros H. rewrite bool_decide_eq_false_2 by exact H. reflexivity.
  - intros H. rewrite bool_decide_eq_false_2 by (intros Hn; apply Hn, H).
    reflexivity.
  - intros d1 q1 Hd1 H1.
    destruct (bool_decide (_desc_tbl q = nullptr)); [|discriminate].
    injection H1 as <-. simpl.
    rewrite bool_decide_eq_false_2 by exact Hd1. reflexivity.
  - reflexivity.
  - reflexivity.
Qed.

(** C6, counterexample.  In a release build a second [set_desc_tbl] on the
    same context returns normally and replaces the first table, and
    [desc_tbl()] on a new context returns the null pointer. *)
Lemma desc_tbl_misuse_undetected_in_release :
  (exists q1,
     set_desc_tbl Release (Some 1%positive) QueryContext_new = Returns q1 /\
     set_desc_tbl Release (Some 2%positive) q1 =
       Returns (with_desc_tbl (Some 2%positive) q1)) /\
  desc_tbl Release QueryContext_new = Returns nullptr.
Proof.
  split; [|reflexivity].
  exists (with_desc_tbl (Some 1%positive) QueryContext_new).
  split; reflexivity.
Qed.

(** ** The registry: counting owners *)

Section OwnerCounting.

Local Open Scope nat_scope.

Lemma refs_by_delete {V : Type} (f : V -> addr) (a : addr)
    (m : gmap TUniqueId V) (k : TUniqueId) :
  refs_by f a (delete k m) + points_to (f <$> m !! k) a = refs_by f a m.
Proof.
  unfold refs_by, points_to.
  destruct (m !! k) as [v|] eqn:Hk; simpl.
  - rewrite <- (insert_delete_id m k v Hk) at 2.
    destruct (decide (Some (f v) = Some a)) as [Heq|Hne].
    + injection Heq as Heq.
      rewrite map_filter_insert_True by exact Heq.
      rewrite map_size_insert_None; [lia|].
      apply map_lookup_filter_None. left. apply lookup_delete_eq.
    + rewrite map_filter_insert_False by (simpl; congruence).
      rewrite delete_delete_eq. lia.
  - rewrite delete_id by exact Hk.
    destruct (decide (None = Some a)); [discriminate | lia].
Qed.

Lemma refs_by_insert {V : Type} (f : V -> addr) (a : addr)
    (m : gmap TUniqueId V) (k : TUniqueId) (v : V) :
  refs_by f a (<[k := v]> m) + points_to (f <$> m !! k) a =
  refs_by f a m + points_to (Some (f v)) a.
Proof.
  rewrite <- (refs_by_delete f a m k).
  rewrite <- (refs_by_delete f a (<[k := v]> m) k).
  rewrite delete_insert_eq, lookup_insert_eq. simpl. lia.
Qed.

Lemma sum_list_with_insert {A : Type} (f : A -> nat) (l : list A) (i : nat)
    (x y : A) :
  l !! i = Some y ->
  sum_list_with f (<[i := x]> l) + f y = sum_list_with f l + f x.
Proof.
  revert i. induction l as [|z l IH]; intros [|i] Hi; simpl in *;
    try discriminate.
  - injection Hi as ->. lia.
  - specialize (IH i Hi). lia.
Qed.

End OwnerCounting.

Section HeapCounting.

Local Open Scope nat_scope.

Lemma points_to_same (a : addr) : points_to (Some a) a = 1.
Proof. unfold points_to. rewrite decide_True; reflexivity. Qed.

Lemma points_to_other (a b : addr) : a <> b -> points_to (Some b) a = 0.
Proof. intros H. unfold points_to. rewrite decide_False; congruence. Qed.

Lemma points_to_None (a : addr) : points_to None a = 0.
Proof. reflexivity. Qed.

Lemma heap_count_release (a b : addr) (h : gmap addr (QueryContext * nat)) :
  0 < heap_count b h ->
  heap_count a (heap_release b h) + points_to (Some b) a = heap_count a h.
Proof.
  unfold heap_count, heap_release. intros Hb.
  destruct (h !! b) as [[c [|[|n]]]|] eqn:Hhb; try lia.
  - destruct (decide (a = b)) as [->|Hne].
    + rewrite lookup_delete_eq, Hhb, points_to_same. reflexivity.
    + rewrite lookup_delete_ne, points_to_other by congruence. lia.
  - destruct (decide (a = b)) as [->|Hne].
    + rewrite lookup_insert_eq, Hhb, points_to_same. lia.
    + rewrite lookup_insert_ne, points_to_other by congruence. lia.
Qed.

Lemma no_zero_release (b : addr) (h : gmap addr (QueryContext * nat)) :
  no_zero h -> no_zero (heap_release b h).
Proof.
  unfold no_zero, heap_release. intros Hnz a c.
  destruct (h !! b) as [[cb [|[|n]]]|] eqn:Hhb; try apply Hnz.
  - rewrite lookup_delete. case_decide; [discriminate | apply Hnz].
  - rewrite lookup_delete. case_decide; [discriminate | apply Hnz].
  - rewrite lookup_insert. case_decide; [congruence | apply Hnz].
Qed.

Lemma heap_count_acquire (a b : addr) (h : gmap addr (QueryContext * nat)) :
  0 < heap_count b h ->
  heap_count a (heap_acquire b h) = heap_count a h + points_to (Some b) a.
Proof.
  unfold heap_count, heap_acquire. intros Hb.
  destruct (h !! b) as [[c n]|] eqn:Hhb; [|lia].
  destruct (decide (a = b)) as [->|Hne].
  - rewrite lookup_insert_eq, Hhb, points_to_same. lia.
  - rewrite lookup_insert_ne, points_to_other by congruence. lia.
Qed.

Lemma no_zero_acquire (b : addr) (h : gmap addr (QueryContext * nat)) :
  no_zero h -> no_zero (heap_acquire b h).
Proof.
  unfold no_zero, heap_acquire. intros Hnz a c.
  destruct (h !! b) as [[cb n]|] eqn:Hhb; [|apply Hnz].
  rewrite lookup_insert. case_decide; [congruence | apply Hnz].
Qed.

Lemma heap_count_alloc (a b : addr) (c : QueryContext)
    (h : gmap addr (QueryContext * nat)) :
  h !! b = None ->
  heap_count a (<[b := (c, 1)]> h) = heap_count a h + points_to (Some b) a.
Proof.
  unfold heap_count. intros Hb.
  destruct (decide (a = b)) as [->|Hne].
  - rewrite lookup_insert_eq, Hb, points_to_same. reflexivity.
  - rewrite lookup_insert_ne, points_to_other by congruence. lia.
Qed.

Lemma no_zero_alloc (b : addr) (c : QueryContext)
    (h : gmap addr (QueryContext * nat)) :
  no_zero h -> no_zero (<[b := (c, 1)]> h).
Proof.
  unfold no_zero. intros Hnz a c'.
  rewrite lookup_insert. case_decide; [congruence | apply Hnz].
Qed.

Lemma heap_count_pos_allocated (a : addr)
    (h : gmap addr (QueryContext * nat)) :
  0 < heap_count a h -> is_Some (h !! a).
Proof.
  unfold heap_count. destruct (h !! a); [eauto | lia].
Qed.

Lemma heap_count_update (a b : addr) (f : QueryContext -> QueryContext)
    (h : gmap addr (QueryContext * nat)) :
  heap_count a (heap_update b f h) = heap_count a h.
Proof.
  unfold heap_count, heap_update.
  destruct (h !! b) as [[c n]|] eqn:Hb; [|reflexivity].
  destruct (decide (a = b)) as [->|Hne].
  - rewrite lookup_insert_eq, Hb. reflexivity.
  - rewrite lookup_insert_ne by congruence. reflexivity.
Qed.

Lemma no_zero_update (b : addr) (f : QueryContext -> QueryContext)
    (h : gmap addr (QueryContext * nat)) :
  no_zero h -> no_zero (heap_update b f h).
Proof.
  unfold no_zero, heap_update. intros Hnz a c.
  destruct (h !! b) as [[cb n]|] eqn:Hb; [|apply Hnz].
  rewrite lookup_insert. case_decide; [|apply Hnz].
  intros Heq. injection Heq as _ ->. exact (Hnz b cb Hb).
Qed.




End HeapCounting.

Section WorldCounting.

Local Open Scope nat_scope.

Lemma sum_refs_delete {V : Type} (f : V -> addr) (a : addr)
    (l : list (gmap TUniqueId V)) (i : nat) (k : TUniqueId) :
  sum_list_with (refs_by f a) (<[i := delete k (default ∅ (l !! i))]> l)
  + points_to (f <$> default ∅ (l !! i) !! k) a
  = sum_list_with (refs_by f a) l.
Proof.
  destruct (l !! i) as [m|] eqn:Hi; simpl.
  - pose proof (sum_list_with_insert (refs_by f a) l i (delete k m) m Hi).
    pose proof (refs_by_delete f a m k). lia.
  - rewrite list_insert_ge by (apply lookup_ge_None; exact Hi).
    rewrite lookup_empty. simpl. rewrite points_to_None. lia.
Qed.

Lemma sum_refs_insert {V : Type} (f : V -> addr) (a : addr)
    (l : list (gmap TUniqueId V)) (i : nat) (k : TUniqueId) (v : V) :
  i < length l ->
  sum_list_with (refs_by f a) (<[i := <[k := v]> (default ∅ (l !! i))]> l)
  + points_to (f <$> default ∅ (l !! i) !! k) a
  = sum_list_with (refs_by f a) l + points_to (Some (f v)) a.
Proof.
  intros Hlt. destruct (lookup_lt_is_Some_2 l i Hlt) as [m Hi].
  rewrite Hi. simpl.
  pose proof (sum_list_with_insert (refs_by f a) l i (<[k := v]> m) m Hi).
  pose proof (refs_by_insert f a m k v). lia.
Qed.

(** The two sums of [slots] after the deletion or the insertion of an
    entry, with the pointers of the entries written as they are stored. *)
Lemma sum_refs_delete_addr (a : addr) (l : list (gmap TUniqueId addr))
    (i : nat) (k : TUniqueId) :
  sum_list_with (refs a) (<[i := delete k (default ∅ (l !! i))]> l)
  + points_to (default ∅ (l !! i) !! k) a
  = sum_list_with (refs a) l.
Proof.
  pose proof (sum_refs_delete (fun b : addr => b) a l i k) as H.
  rewrite option_fmap_id in H. exact H.
Qed.

Lemma sum_refs_insert_addr (a : addr) (l : list (gmap TUniqueId addr))
    (i : nat) (k : TUniqueId) (b : addr) :
  i < length l ->
  sum_list_with (refs a) (<[i := <[k := b]> (default ∅ (l !! i))]> l)
  + points_to (default ∅ (l !! i) !! k) a
  = sum_list_with (refs a) l + points_to (Some b) a.
Proof.
  intros Hi.
  pose proof (sum_refs_insert (fun b : addr => b) a l i k b Hi) as H.
  rewrite option_fmap_id in H. exact H.
Qed.

Lemma context_map_lookup_lt (i : nat) (s : world) (k : TUniqueId) (a : addr) :
  context_map i s !! k = Some a -> i < length (_context_maps (manager s)).
Proof.
  unfold context_map. intros H.
  destruct (_context_maps (manager s) !! i) eqn:Hi.
  - eapply lookup_lt_Some. exact Hi.
  - simpl in H. rewrite lookup_empty in H. discriminate.
Qed.


(** An address stored in a map has an owner. *)
Lemma live_entry_slots (i : nat) (s : world) (k : TUniqueId) (a : addr) :
  context_map i s !! k = Some a -> 0 < slots a s.
Proof.
  unfold context_map, slots. intros H.
  pose proof (sum_refs_delete_addr a (_context_maps (manager s)) i k) as HL.
  rewrite H, points_to_same in HL. lia.
Qed.

Lemma tombstone_entry_slots (i : nat) (s : world) (k : TUniqueId)
    (a : addr) :
  second_chance_map i s !! k = Some a -> 0 < slots a s.
Proof.
  unfold second_chance_map, slots. intros H.
  pose proof (sum_refs_delete_addr a (_second_chance_maps (manager s)) i k)
    as HT.
  rewrite H, points_to_same in HT. lia.
Qed.

Lemma consistent_slots_allocated (s : world) (a : addr) :
  consistent s -> 0 < owners a s -> allocated a s.
Proof.
  intros (_ & Hcount & _) Hpos. apply heap_count_pos_allocated.
  fold (use_count a s). rewrite Hcount. exact Hpos.
Qed.

Lemma move_to_tombstone_consistent (i : nat) (k : TUniqueId) (a : addr)
    (now : Z) (s : world) :
  consistent s ->
  context_map i s !! k = Some a ->
  consistent (move_to_tombstone i k a now s).
Proof.
  intros ((Hpos & Hlen) & Hcount & Hnz) Hlive.
  pose proof (context_map_lookup_lt i s k a Hlive) as Hi.
  split; [|split].
  - unfold well_formed, move_to_tombstone. simpl.
    rewrite !length_insert. split; assumption.
  - intros x.
    pose proof (sum_refs_delete_addr x (_context_maps (manager s)) i k) as HL.
    pose proof (sum_refs_insert_addr x (_second_chance_maps (manager s))
                  i k a) as HT.
    rewrite <- Hlen in HT. specialize (HT Hi).
    fold (context_map i s) in HL. fold (second_chance_map i s) in HT.
    rewrite Hlive in HL.
    pose proof (Hcount x) as Hx.
    pose proof (heap_count_update x a (extend_lifetime now) (heap s)) as Hup.
    unfold move_to_tombstone, use_count, owners, slots in *.
    cbn [manager heap held _context_maps _second_chance_maps with_heap
         with_context_map with_second_chance_map].
    destruct (second_chance_map i s !! k) as [b|] eqn:Htomb.
    + pose proof (tombstone_entry_slots i s k b Htomb) as Hb.
      pose proof (Hcount b) as Hcb. unfold slots in Hb.
      pose proof (heap_count_update b a (extend_lifetime now) (heap s))
        as Hupb.
      pose proof (heap_count_release x b
                    (heap_update a (extend_lifetime now) (heap s))) as Hrel.
      lia.
    + rewrite points_to_None in HT. lia.
  - unfold move_to_tombstone. simpl.
    destruct (second_chance_map i s !! k) as [b|].
    + apply no_zero_release, no_zero_update. exact Hnz.
    + apply no_zero_update. exact Hnz.
Qed.

End WorldCounting.

(** ** The registry: every operation keeps the use counts exact *)

Section Preservation.

#[local] Set Default Proof Using "Type".

Variable hash : TUniqueId -> Z.

Local Open Scope nat_scope.

Lemma slot_of_lt (s : world) (k : TUniqueId) :
  well_formed s -> slot_of hash s k < length (_context_maps (manager s)).
Proof.
  intros [Hpos _]. unfold slot_of.
  pose proof (Z.mod_pos_bound (hash k)
                (Z.of_nat (length (_context_maps (manager s))))) as H.
  lia.
Qed.

Lemma remove_consistent (k : TUniqueId) (now : Z) (s : world) :
  consistent s -> consistent (remove hash k now s).
Proof.
  intros Hc. unfold remove.
  destruct (context_map _ s !! k) eqn:Hl; [|exact Hc].
  apply move_to_tombstone_consistent; assumption.
Qed.

Lemma register_new_consistent (i : nat) (k : TUniqueId) (s : world) :
  consistent s ->
  i < length (_context_maps (manager s)) ->
  context_map i s !! k = None ->
  consistent (snd (register_new i k s)).
Proof.
  intros ((Hpos & Hlen) & Hcount & Hnz) Hi Hlive.
  pose proof (is_fresh (dom (heap s))) as Hfresh.
  apply not_elem_of_dom in Hfresh.
  set (a := fresh (dom (heap s))) in *.
  split; [|split].
  - unfold well_formed, register_new. simpl.
    rewrite !length_insert. split; assumption.
  - intros x.
    pose proof (sum_refs_insert_addr x (_context_maps (manager s)) i k a Hi)
      as HL.
    fold (context_map i s) in HL. rewrite Hlive in HL.
    rewrite points_to_None in HL.
    pose proof (Hcount x) as Hx.
    pose proof (heap_count_alloc x a (set_query_id k QueryContext_new)
                  (heap s) Hfresh) as Ha.
    unfold register_new, use_count, owners, slots in *.
    cbn [snd manager heap held _context_maps _second_chance_maps with_heap
         with_context_map with_second_chance_map].
    fold a. lia.
  - unfold register_new. simpl. apply no_zero_alloc. exact Hnz.
Qed.

Lemma revive_consistent (i : nat) (k : TUniqueId) (a : addr) (s : world) :
  consistent s ->
  i < length (_context_maps (manager s)) ->
  context_map i s !! k = None ->
  second_chance_map i s !! k = Some a ->
  consistent
    (with_context_map i (<[k := a]> (context_map i s))
       (with_second_chance_map i (delete k (second_chance_map i s)) s)).
Proof.
  intros ((Hpos & Hlen) & Hcount & Hnz) Hi Hlive Htomb.
  split; [|split].
  - unfold well_formed. simpl. rewrite !length_insert. split; assumption.
  - intros x.
    pose proof (sum_refs_insert_addr x (_context_maps (manager s)) i k a Hi)
      as HL.
    pose proof (sum_refs_delete_addr x (_second_chance_maps (manager s)) i k)
      as HT.
    fold (context_map i s) in HL. fold (second_chance_map i s) in HT.
    rewrite Hlive in HL. rewrite Htomb in HT.
    rewrite points_to_None in HL.
    pose proof (Hcount x) as Hx.
    unfold use_count, owners, slots in *.
    cbn [manager heap held _context_maps _second_chance_maps with_heap
         with_context_map with_second_chance_map context_map].
    fold (context_map i s). lia.
  - exact Hnz.
Qed.

Lemma get_or_register_consistent (k : TUniqueId) (now : Z) (s : world) :
  consistent s -> consistent (snd (get_or_register hash k now s)).
Proof.
  intros Hc. pose proof (slot_of_lt s k (proj1 Hc)) as Hi.
  unfold get_or_register.
  destruct (context_map _ s !! k) eqn:Hlive; [exact Hc|].
  destruct (second_chance_map _ s !! k) as [a|] eqn:Htomb.
  - destruct (is_expired_at now a s).
    + pose proof (register_new_consistent _ k s Hc Hi Hlive) as Hn.
      destruct (register_new _ k s). exact Hn.
    + simpl. eapply revive_consistent; eassumption.
  - pose proof (register_new_consistent _ k s Hc Hi Hlive) as Hn.
    destruct (register_new _ k s). exact Hn.
Qed.

Lemma hand_out_consistent (a : addr) (s : world) :
  consistent s -> 0 < slots a s -> consistent (snd (hand_out a s)).
Proof.
  intros (Hwf & Hcount & Hnz) Hslots.
  split; [exact Hwf|split].
  - intros x. pose proof (Hcount x) as Hx. pose proof (Hcount a) as Ha.
    pose proof (heap_count_acquire x a (heap s)) as Hacq.
    unfold hand_out, use_count, owners in *. simpl.
    rewrite multiplicity_disj_union, multiplicity_singleton.
    unfold points_to in Hacq.
    destruct (decide (x = a)) as [->|Hne].
    + rewrite decide_True in Hacq by reflexivity.
      change (slots a (with_held _ _)) with (slots a s). lia.
    + rewrite decide_False in Hacq by congruence.
      change (slots x (with_held _ _)) with (slots x s). lia.
  - unfold hand_out. simpl. apply no_zero_acquire. exact Hnz.
Qed.

Lemma get_consistent (k : TUniqueId) (s : world) :
  consistent s -> consistent (snd (get hash k s)).
Proof.
  intros Hc. unfold get.
  destruct (context_map _ s !! k) eqn:Hlive.
  - apply hand_out_consistent; [exact Hc|].
    eapply live_entry_slots. exact Hlive.
  - destruct (second_chance_map _ s !! k) as [a|] eqn:Htomb; [|exact Hc].
    apply hand_out_consistent; [exact Hc|].
    eapply tombstone_entry_slots. exact Htomb.
Qed.

Lemma release_handle_consistent (a : addr) (s : world) :
  consistent s -> consistent (release_handle a s).
Proof.
  intros (Hwf & Hcount & Hnz). unfold release_handle.
  destruct (decide (a ∈ held s)) as [Hin|Hout];
    [|split; [exact Hwf | split; assumption]].
  pose proof (proj1 (elem_of_multiplicity a (held s)) Hin) as Hm.
  split; [exact Hwf|split].
  - intros x. pose proof (Hcount x) as Hx. pose proof (Hcount a) as Ha.
    pose proof (heap_count_release x a (heap s)) as Hrel.
    unfold use_count, owners in *. simpl.
    rewrite multiplicity_difference, multiplicity_singleton.
    unfold points_to in Hrel.
    destruct (decide (x = a)) as [->|Hne].
    + rewrite decide_True in Hrel by reflexivity.
      change (slots a (with_held _ _)) with (slots a s). lia.
    + rewrite decide_False in Hrel by congruence.
      change (slots x (with_held _ _)) with (slots x s). lia.
  - simpl. apply no_zero_release. exact Hnz.
Qed.

Lemma retire_one_consistent (i : nat) (now : Z) (k : TUniqueId) (s : world) :
  consistent s -> consistent (retire_one i now k s).
Proof.
  intros Hc. unfold retire_one.
  destruct (context_map i s !! k) eqn:Hlive; [|exact Hc].
  destruct (is_dead_at _ s || is_expired_at now _ s); [|exact Hc].
  apply move_to_tombstone_consistent; assumption.
Qed.

Lemma prune_one_consistent (i : nat) (now : Z) (k : TUniqueId) (s : world) :
  consistent s -> consistent (prune_one i now k s).
Proof.
  intros Hc. unfold prune_one.
  destruct (second_chance_map i s !! k) as [a|] eqn:Htomb; [|exact Hc].
  destruct (is_expired_at now a s); [|exact Hc].
  destruct Hc as ((Hpos & Hlen) & Hcount & Hnz).
  split; [|split].
  - unfold well_formed. simpl. rewrite !length_insert. split; assumption.
  - intros x.
    pose proof (sum_refs_delete_addr x (_second_chance_maps (manager s)) i k)
      as HT.
    fold (second_chance_map i s) in HT. rewrite Htomb in HT.
    pose proof (tombstone_entry_slots i s k a Htomb) as Hb.
    pose proof (Hcount x) as Hx. pose proof (Hcount a) as Ha.
    pose proof (heap_count_release x a (heap s)) as Hrel.
    unfold use_count, owners, slots in *.
    cbn [manager heap held _context_maps _second_chance_maps with_heap
         with_context_map with_second_chance_map].
    lia.
  - simpl. apply no_zero_release. exact Hnz.
Qed.

Lemma foldr_consistent {A : Type} (f : A -> world -> world) (l : list A)
    (s : world) :
  (forall x s', consistent s' -> consistent (f x s')) ->
  consistent s -> consistent (foldr f s l).
Proof.
  intros Hf Hs. induction l as [|x l IH]; simpl; [exact Hs|].
  apply Hf. exact IH.
Qed.

Lemma sweep_slot_consistent (i : nat) (now : Z) (s : world) :
  consistent s -> consistent (sweep_slot i now s).
Proof.
  intros Hc. unfold sweep_slot.
  apply foldr_consistent; [intros; apply prune_one_consistent; assumption|].
  apply foldr_consistent; [intros; apply retire_one_consistent; assumption|].
  exact Hc.
Qed.

Lemma sweep_consistent (now : Z) (s : world) :
  consistent s -> consistent (sweep now s).
Proof.
  unfold sweep. generalize (seq 0 (length (_context_maps (manager s)))).
  intros l. revert s. induction l as [|i l IH]; intros s Hc; simpl.
  - exact Hc.
  - apply IH. apply sweep_slot_consistent. exact Hc.
Qed.

Lemma manager_step_consistent (o : manager_op) (s : world) :
  consistent s -> consistent (manager_step hash s o).
Proof.
  intros Hc. destruct o; simpl.
  - apply get_or_register_consistent. exact Hc.
  - apply get_consistent. exact Hc.
  - apply remove_consistent. exact Hc.
  - apply sweep_consistent. exact Hc.
  - apply release_handle_consistent. exact Hc.
Qed.

Lemma run_manager_consistent (os : list manager_op) (s : world) :
  consistent s -> consistent (run_manager hash os s).
Proof.
  unfold run_manager. revert s.
  induction os as [|o os IH]; intros s Hc; simpl; [exact Hc|].
  apply IH. apply manager_step_consistent. exact Hc.
Qed.

Lemma world_new_consistent (shard_count : nat) :
  0 < shard_count -> consistent (world_new shard_count).
Proof.
  intros Hpos. split; [|split].
  - unfold well_formed. simpl. rewrite !length_replicate.
    split; [lia|reflexivity].
  - intros a. unfold use_count, owners, slots, heap_count. simpl.
    rewrite lookup_empty, multiplicity_empty.
    assert (H : forall n,
              sum_list_with (refs a) (replicate n ∅) = 0).
    { intros n. induction n as [|n IH]; simpl; [reflexivity|].
      rewrite IH. unfold refs, refs_by.
      rewrite map_filter_empty, map_size_empty. reflexivity. }
    rewrite !H. reflexivity.
  - intros a c. simpl. rewrite lookup_empty. discriminate.
Qed.

End Preservation.

(** ** The registry: what the maps hold after an operation *)

Section MapContents.

Lemma context_map_with_context_map (i j : nat) (cm : gmap TUniqueId addr)
    (s : world) :
  context_map i (with_context_map j cm s) =
    if decide (i = j /\ (j < length (_context_maps (manager s)))%nat)
    then cm else context_map i s.
Proof.
  unfold context_map, with_context_map. simpl.
  destruct (decide (i = j /\ _)) as [[-> Hlt]|Hn].
  - rewrite list_lookup_insert_eq by exact Hlt. reflexivity.
  - destruct (decide (i = j)) as [->|Hne].
    + rewrite list_insert_ge by lia. reflexivity.
    + rewrite list_lookup_insert_ne by congruence. reflexivity.
Qed.












(** *** A tombstone during the sweeps *)

























End MapContents.

(** ** The registry: lookups, removal and the reaper *)

Section Lookups.

#[local] Set Default Proof Using "Type".

Variable hash : TUniqueId -> Z.








Lemma get_or_register_live (s s' : world) (k : TUniqueId) (now : Z)
    (h : handle) :
  well_formed s ->
  get_or_register hash k now s = (h, s') ->
  exists a, h = RawPtr a /\
            context_map (slot_of hash s k) s' !! k = Some a /\
            held s' = held s.
Proof.
  intros Hwf Hgor. pose proof (slot_of_lt hash s k Hwf) as Hi.
  unfold get_or_register in Hgor.
  set (i := slot_of hash s k) in *.
  assert (Hins : forall a s0,
    length (_context_maps (manager s0)) = length (_context_maps (manager s)) ->
    context_map i (with_context_map i (<[k:=a]> (context_map i s)) s0) !! k
      = Some a).
  { intros a s0 Hl. rewrite context_map_with_context_map.
    rewrite decide_True by (split; [reflexivity | rewrite Hl; exact Hi]).
    apply lookup_insert_eq. }
  destruct (context_map i s !! k) as [a|] eqn:Hlive.
  - injection Hgor as <- <-. exists a. repeat split. exact Hlive.
  - destruct (second_chance_map i s !! k) as [a|] eqn:Htomb.
    + destruct (is_expired_at now a s).
      * unfold register_new in Hgor. injection Hgor as <- <-.
        eexists. split; [reflexivity|].
        split; [apply (Hins _ s); reflexivity | reflexivity].
      * injection Hgor as <- <-. exists a. split; [reflexivity|].
        split; [apply Hins; reflexivity | reflexivity].
    + unfold register_new in Hgor. injection Hgor as <- <-.
      eexists. split; [reflexivity|].
      split; [apply (Hins _ s); reflexivity | reflexivity].
Qed.

(** C7, as amended.  [get] returns a [QueryContextPtr]: the handle is one
    more owner of the context, and whatever the registry and its other
    callers do afterwards, the context is there for as long as a caller
    holds such a handle.  [get_or_register] returns a [QueryContext*]: the
    pointer is valid when it is returned but adds no owner, the use count
    of the context being that of the map slots and of the shared handles
    handed out by [get]. *)
Theorem lookup_handle_ownership (s : world) (k : TUniqueId) (now : Z) :
  consistent s ->
  (forall h s', get hash k s = (Some h, s') ->
     exists a, h = SharedPtr a /\
       use_count a s' = S (use_count a s) /\
       multiplicity a (held s') = S (multiplicity a (held s)) /\
       forall os,
         a ∈ held (run_manager hash os s') ->
         allocated a (run_manager hash os s')) /\
  (forall h s', get_or_register hash k now s = (h, s') ->
     exists a, h = RawPtr a /\
       allocated a s' /\
       held s' = held s /\
       use_count a s' = (slots a s' + multiplicity a (held s))%nat).
Proof.
  intros Hc. split.
  - intros h s' Hget.
    pose proof (get_consistent hash k s Hc) as Hc'.
    rewrite Hget in Hc'. simpl in Hc'.
    assert (Hout : exists a, (0 < slots a s)%nat /\
                             (Some h, s') = hand_out a s).
    { unfold get in Hget.
      destruct (context_map _ s !! k) as [a|] eqn:Hlive.
      - exists a. split; [eapply live_entry_slots; exact Hlive|].
        symmetry. exact Hget.
      - destruct (second_chance_map _ s !! k) as [a|] eqn:Htomb;
          [|discriminate].
        exists a. split; [eapply tombstone_entry_slots; exact Htomb|].
        symmetry. exact Hget. }
    destruct Hout as (a & Hslots & Hout).
    unfold hand_out in Hout. injection Hout as -> ->.
    exists a. split; [reflexivity|].
    destruct Hc as (Hwf & Hcount & Hnz).
    split; [|split].
    + unfold use_count. simpl.
      rewrite heap_count_acquire, points_to_same; [lia|].
      fold (use_count a s). rewrite Hcount. unfold owners. lia.
    + simpl. rewrite multiplicity_disj_union, multiplicity_singleton_eq. lia.
    + intros os Hheld.
      apply consistent_slots_allocated.
      * apply run_manager_consistent. exact Hc'.
      * pose proof (proj1 (elem_of_multiplicity _ _) Hheld) as Hm.
        unfold owners. lia.
  - intros h s' Hgor.
    pose proof (get_or_register_consistent hash k now s Hc) as Hc'.
    rewrite Hgor in Hc'. simpl in Hc'.
    destruct (get_or_register_live s s' k now h (proj1 Hc) Hgor)
      as (a & -> & Hlive & Hheld).
    exists a. split; [reflexivity|].
    pose proof (live_entry_slots _ s' k a Hlive) as Hslots.
    split; [|split].
    + apply consistent_slots_allocated; [exact Hc'|]. unfold owners. lia.
    + exact Hheld.
    + destruct Hc' as (_ & Hcount & _). rewrite Hcount. unfold owners.
      rewrite Hheld. reflexivity.
Qed.

End Lookups.


(** C7, counterexample.  On a one-shard registry, the handle returned by
    [get_or_register] is a raw pointer to the context at address 1; once the
    entry has been removed and a sweep has run after the deadline then set,
    the context is destroyed although no caller has given the handle up. *)
Lemma get_or_register_pointer_dangles :
  let r := get_or_register example_hash example_id 0 (world_new 1) in
  let s2 := sweep 1000000 (remove example_hash example_id 0 (snd r)) in
  consistent (world_new 1) /\
  fst r = RawPtr 1 /\
  allocated 1 (snd r) /\
  ~ allocated 1 s2.
Proof.
  intros r s2. split; [|split; [|split]].
  - apply world_new_consistent. lia.
  - vm_compute. reflexivity.
  - unfold allocated. vm_compute. eexists. reflexivity.
  - unfold allocated. intros [c Hc]. vm_compute in Hc. discriminate.
Qed.


(** ** Tracer *)

Section TracerFacts.

Local Open Scope nat_scope.

Lemma new_span_lookup (t : Tracer) (r : SpanRecord) (span : Span) :
  (_tracer t ++ [r]) !! span =
    if decide (span = length (_tracer t)) then Some r
    else _tracer t !! span.
Proof.
  destruct (decide (span = length (_tracer t))) as [->|Hne].
  - rewrite lookup_app_r by lia. rewrite Nat.sub_diag. reflexivity.
  - destruct (decide (span < length (_tracer t))) as [Hlt|Hge].
    + apply lookup_app_l. exact Hlt.
    + rewrite !lookup_ge_None_2; [reflexivity | lia |].
      rewrite length_app. simpl. lia.
Qed.

Lemma parents_older_snoc (t : Tracer) (r : SpanRecord) :
  parents_older t ->
  (forall p, span_parent r = Some p -> p < length (_tracer t)) ->
  parents_older (mkTracer (_tracer t ++ [r]) (_tracer_options t)).
Proof.
  intros Ht Hr span r' p Hl Hp. simpl in Hl.
  rewrite new_span_lookup in Hl.
  destruct (decide (span = length (_tracer t))) as [Heq|Hne].
  - rewrite decide_True in Hl by exact Heq.
    injection Hl as <-. rewrite Heq. apply Hr. exact Hp.
  - rewrite decide_False in Hl by exact Hne.
    eapply Ht; eassumption.
Qed.

Lemma run_tracer_parents_older (cs : list tracer_call) (t : Tracer) :
  parents_older t ->
  known_parents cs (length (_tracer t)) ->
  parents_older (run_tracer cs t).
Proof.
  unfold run_tracer. revert t.
  induction cs as [|c cs IH]; intros t Ht Hk; cbn [foldl]; [exact Ht|].
  apply IH.
  - destruct c as [name|name p|name p]; simpl in *;
      apply parents_older_snoc; try exact Ht; simpl.
    + discriminate.
    + intros p' Hp'. injection Hp' as <-. unfold GetContext. tauto.
    + intros p' Hp'. injection Hp' as <-. tauto.
  - destruct c as [name|name p|name p]; simpl in *;
      rewrite length_app; simpl; rewrite Nat.add_1_r; tauto.
Qed.

(** Following parent links from any span ends at a root. *)
Lemma root_of_reaches_root (t : Tracer) (fuel : nat) (span : Span)
    (r : SpanRecord) :
  parents_older t ->
  _tracer t !! span = Some r ->
  span <= fuel ->
  exists root, root_of fuel t span = Some root /\ is_root t root.
Proof.
  intros Ht. revert span r.
  induction fuel as [|fuel IH]; intros span r Hl Hle.
  - simpl. rewrite Hl.
    destruct (span_parent r) as [p|] eqn:Hp.
    + pose proof (Ht span r p Hl Hp). lia.
    + exists span. split; [reflexivity|]. exists r. split; assumption.
  - simpl. rewrite Hl.
    destruct (span_parent r) as [p|] eqn:Hp.
    + pose proof (Ht span r p Hl Hp) as Hlt.
      destruct (lookup_lt_is_Some_2 (_tracer t) p) as [r' Hl'].
      { apply lookup_lt_Some in Hl. lia. }
      apply (IH p r' Hl'). lia.
    + exists span. split; [reflexivity|]. exists r. split; assumption.
Qed.

(** C9.  [start_trace] creates and returns a new span without parent;
    [add_span], on a span or on a span context, creates and returns a new
    span whose parent is the one given.  When the parents given are spans
    of the same tracer, parent links lead from every span, through spans
    created before it, to exactly one root: the spans form trees. *)
Theorem tracer_spans_form_trees (t : Tracer) (name : string)
    (parent : Span) (cs : list tracer_call) (service_name : string)
    (opts : TracerOptions) :
  known_parents cs 0 ->
  (let '(span, t') := start_trace name t in
   _tracer t !! span = None /\
   _tracer t' !! span = Some (mkSpanRecord name None) /\
   is_root t' span /\
   forall other, other <> span -> _tracer t' !! other = _tracer t !! other) /\
  (let '(span, t') := add_span name parent t in
   _tracer t !! span = None /\
   _tracer t' !! span = Some (mkSpanRecord name (Some (GetContext parent))) /\
   forall other, other <> span -> _tracer t' !! other = _tracer t !! other) /\
  (let '(span, t') := add_span_ctx name parent t in
   _tracer t !! span = None /\
   _tracer t' !! span = Some (mkSpanRecord name (Some parent)) /\
   forall other, other <> span -> _tracer t' !! other = _tracer t !! other) /\
  (let t' := run_tracer cs (Tracer_new service_name opts) in
   forall span r,
     _tracer t' !! span = Some r ->
     (forall p, span_parent r = Some p ->
        p < span /\ is_Some (_tracer t' !! p)) /\
     exists root, root_of span t' span = Some root /\ is_root t' root).
Proof.
  intros Hk.
  assert (Hnew : forall r,
    _tracer t !! length (_tracer t) = None /\
    (_tracer t ++ [r]) !! length (_tracer t) = Some r /\
    forall other, other <> length (_tracer t) ->
      (_tracer t ++ [r]) !! other = _tracer t !! other).
  { intros r. split; [apply lookup_ge_None_2; lia|]. split.
    - rewrite new_span_lookup, decide_True; reflexivity.
    - intros other Hne. rewrite new_span_lookup, decide_False; auto. }
  split; [|split; [|split]].
  - simpl. destruct (Hnew (mkSpanRecord name None)) as (H1 & H2 & H3).
    repeat split; try assumption.
    exists (mkSpanRecord name None). split; [exact H2 | reflexivity].
  - simpl. apply Hnew.
  - simpl. apply Hnew.
  - intros t' span r Hl.
    assert (Ht' : parents_older t').
    { apply run_tracer_parents_older; [|exact Hk].
      intros sp r' p Hl'. simpl in Hl'. rewrite lookup_nil in Hl'.
      discriminate. }
    split.
    + intros p Hp. pose proof (Ht' span r p Hl Hp) as Hlt.
      split; [exact Hlt|]. apply lookup_lt_is_Some_2.
      apply lookup_lt_Some in Hl. lia.
    + eapply root_of_reaches_root; [exact Ht' | exact Hl | lia].
Qed.

End TracerFacts.

(** * Further properties of the code *)

(** ** A fragment's start and finish *)

Section FragmentLifecycle.

Variable w : Z.
Hypothesis w_ge_16 : 16 <= w.

Lemma increment_num_fragments_eq (q : QueryContext) :
  increment_num_fragments w q =
    with_num_active_fragments (size_wrap w (_num_active_fragments q + 1))
      (with_num_fragments (size_wrap w (_num_fragments q + 1)) q).
Proof. reflexivity. Qed.

Lemma size_wrap_succ (z : Z) :
  is_size_t w z ->
  size_wrap w (z + 1) = if decide (z = 2 ^ w - 1) then 0 else z + 1.
Proof.
  pose proof (size_modulus_large w w_ge_16) as HM.
  intros [Hlo Hhi]. destruct (decide (z = 2 ^ w - 1)) as [->|Hne].
  - unfold size_wrap. replace (2 ^ w - 1 + 1) with (2 ^ w) by lia.
    apply Z.mod_same. lia.
  - apply size_wrap_small. unfold is_size_t. lia.
Qed.

(** X1.  A fragment that starts and finishes with nothing in between leaves
    the active count as it was, also when the count wraps around, and has
    counted one more fragment; its count-down returns [true] exactly when
    no other fragment was active. *)
Theorem count_down_after_increment (q : QueryContext) :
  is_size_t w (_num_active_fragments q) ->
  let r := count_down_fragments w (increment_num_fragments w q) in
  fst r = is_finished q /\
  _num_active_fragments (snd r) = _num_active_fragments q /\
  _num_fragments (snd r) = size_wrap w (_num_fragments q + 1) /\
  _total_fragments (snd r) = _total_fragments q.
Proof.
  pose proof (size_modulus_large w w_ge_16) as HM.
  intros Hq r. subst r.
  rewrite count_down_fragments_eq, increment_num_fragments_eq.
  cbn [fst snd _num_active_fragments _num_fragments _total_fragments
       with_num_active_fragments with_num_fragments].
  rewrite (size_wrap_succ _ Hq). unfold is_finished.
  destruct Hq as [Hlo Hhi].
  destruct (decide (_num_active_fragments q = 2 ^ w - 1)) as [Hmax|Hne].
  - rewrite (size_wrap_minus_one w w_ge_16). rewrite Hmax.
    repeat split. symmetry. apply Z.eqb_neq. lia.
  - replace (_num_active_fragments q + 1 - 1)
      with (_num_active_fragments q) by lia.
    rewrite size_wrap_small by (unfold is_size_t; lia).
    repeat split.
    destruct (Z.eqb_spec (_num_active_fragments q) 0) as [H0|H0].
    + rewrite H0. reflexivity.
    + apply Z.eqb_neq. lia.
Qed.

(** X2.  The value returned by [count_down_fragments()] is the value that
    [is_finished()] has right after it. *)
Theorem count_down_result_is_finished (q : QueryContext) :
  is_size_t w (_num_active_fragments q) ->
  fst (count_down_fragments w q) = is_finished (snd (count_down_fragments w q)).
Proof.
  intros Hq. rewrite count_down_fragments_eq. unfold is_finished.
  cbn [fst snd _num_active_fragments with_num_active_fragments].
  pose proof (size_wrap_pred_zero w w_ge_16 _ Hq) as Hiff.
  destruct (Z.eqb_spec (_num_active_fragments q) 1) as [H1|H1];
    destruct (Z.eqb_spec (size_wrap w (_num_active_fragments q - 1)) 0)
      as [H0|H0]; tauto.
Qed.

(** X3.  After [increment_num_fragments()] the context is not finished and
    not dead, except when the active count was the largest [size_t]: then
    the count wraps around to zero and the context is finished. *)
Theorem increment_finished_only_on_overflow (q : QueryContext) :
  is_size_t w (_num_active_fragments q) ->
  (is_finished (increment_num_fragments w q) = true <->
     _num_active_fragments q = 2 ^ w - 1) /\
  (_num_active_fragments q < 2 ^ w - 1 ->
     is_finished (increment_num_fragments w q) = false /\
     is_dead (increment_num_fragments w q) = false).
Proof.
  pose proof (size_modulus_large w w_ge_16) as HM.
  intros Hq. rewrite increment_num_fragments_eq. unfold is_finished, is_dead.
  cbn [_num_active_fragments _num_fragments _total_fragments
       with_num_active_fragments with_num_fragments].
  rewrite (size_wrap_succ _ Hq). destruct Hq as [Hlo Hhi].
  destruct (decide (_num_active_fragments q = 2 ^ w - 1)) as [Hmax|Hne].
  - split; [split; [intros _; exact Hmax | reflexivity] | lia].
  - assert (Hnz : (_num_active_fragments q + 1 =? 0) = false)
      by (apply Z.eqb_neq; lia).
    rewrite Hnz. split; [split; [discriminate | contradiction]|].
    intros _. split; reflexivity.
Qed.

Lemma size_wrap_add_l (x d : Z) :
  size_wrap w (size_wrap w x + d) = size_wrap w (x + d).
Proof.
  pose proof (size_modulus_large w w_ge_16) as HM.
  unfold size_wrap. apply Zplus_mod_idemp_l.
Qed.

(** X4.  No update of the counters is lost: after any execution of the
    atomic operations, [_num_fragments] is its initial value plus the number
    of additions, and [_num_active_fragments] its initial value plus the
    additions minus the count-downs, both modulo [2^w]; [_total_fragments]
    is untouched. *)
Theorem counters_exact_modulo (t : list atomic_op) (q : QueryContext) :
  is_size_t w (_num_fragments q) ->
  is_size_t w (_num_active_fragments q) ->
  _num_fragments (final_state w t q) =
    size_wrap w (_num_fragments q + count_ops Op_fetch_add_num_fragments t) /\
  _num_active_fragments (final_state w t q) =
    size_wrap w
      (_num_active_fragments q
       + count_ops Op_fetch_add_num_active t - count_ops Op_count_down t) /\
  _total_fragments (final_state w t q) = _total_fragments q.
Proof.
  revert q. induction t as [|a t IH]; intros q Hf Ha.
  - cbn [final_state fold_left count_ops].
    replace (_num_active_fragments q + 0 - 0)
      with (_num_active_fragments q) by lia.
    replace (_num_fragments q + 0) with (_num_fragments q) by lia.
    rewrite !size_wrap_small by assumption. repeat split.
  - change (final_state w (a :: t) q)
      with (final_state w t (snd (atomic_step w a q))).
    destruct (IH (snd (atomic_step w a q))) as (F & A & T).
    + destruct a; cbn; try exact Hf. apply (size_wrap_is_size_t w w_ge_16).
    + destruct a; cbn; try exact Ha; apply (size_wrap_is_size_t w w_ge_16).
    + rewrite F, A, T. cbn [count_ops].
      destruct a; repeat (case_decide; try discriminate; try congruence);
        cbn [atomic_step snd fst fetch_add_num_fragments
             fetch_add_num_active_fragments count_down_fragments fetch_add
             fetch_sub _num_fragments _num_active_fragments _total_fragments
             with_num_fragments with_num_active_fragments].
      * rewrite size_wrap_add_l. repeat split; f_equal; lia.
      * replace (size_wrap w (_num_active_fragments q + 1)
                 + count_ops Op_fetch_add_num_active t
                 - count_ops Op_count_down t)
          with (size_wrap w (_num_active_fragments q + 1)
                + (count_ops Op_fetch_add_num_active t
                   - count_ops Op_count_down t)) by lia.
        rewrite size_wrap_add_l. repeat split; f_equal; lia.
      * replace (size_wrap w (_num_active_fragments q - 1)
                 + count_ops Op_fetch_add_num_active t
                 - count_ops Op_count_down t)
          with (size_wrap w (_num_active_fragments q - 1)
                + (count_ops Op_fetch_add_num_active t
                   - count_ops Op_count_down t)) by lia.
        rewrite size_wrap_add_l. repeat split; f_equal; lia.
Qed.

(** X5.  [increment_num_fragments()] is two separate additions.  On a
    context without active fragment that waits for its last fragment, the
    state between the two satisfies [is_dead()], although the context is
    dead neither before the call nor after it. *)
Theorem is_dead_between_the_two_additions (q : QueryContext) :
  is_size_t w (_total_fragments q) ->
  _num_active_fragments q = 0 ->
  _num_fragments q + 1 = _total_fragments q ->
  is_dead q = false /\
  is_dead (fetch_add_num_fragments w q) = true /\
  is_dead (increment_num_fragments w q) = false /\
  is_finished (increment_num_fragments w q) = false.
Proof.
  pose proof (size_modulus_large w w_ge_16) as HM.
  intros [Ht0 HtM] Ha Hf.
  rewrite increment_num_fragments_eq.
  unfold is_dead, is_finished, fetch_add_num_fragments, fetch_add.
  cbn [snd _num_active_fragments _num_fragments _total_fragments
       with_num_active_fragments with_num_fragments].
  rewrite Ha, Hf.
  rewrite (size_wrap_small w (_total_fragments q))
    by (unfold is_size_t; lia).
  rewrite (size_wrap_small w (0 + 1)) by (unfold is_size_t; lia).
  split; [apply Z.eqb_neq; lia|]. split; [apply Z.eqb_refl|].
  split; reflexivity.
Qed.

(** X6.  When [n] fragments are active and each counts down once, in
    whatever order the threads get to it, the first [n - 1] calls return
    [false] and the last one returns [true]. *)
Theorem last_of_n_finishers (n : nat) (q : QueryContext) :
  Z.of_nat (S n) < 2 ^ w ->
  _num_active_fragments q = Z.of_nat (S n) ->
  map ev_result (run_atomics w (replicate (S n) Op_count_down) q) =
    replicate n (Some false) ++ [Some true] /\
  is_finished (final_state w (replicate (S n) Op_count_down) q) = true.
Proof.
  revert q. induction n as [|n IH]; intros q Hlt Ha.
  - cbn [replicate run_atomics atomic_step map app final_state fold_left snd].
    rewrite count_down_fragments_eq.
    cbn [map ev_result snd _num_active_fragments with_num_active_fragments].
    unfold is_finished. cbn [_num_active_fragments with_num_active_fragments].
    rewrite Ha. split; reflexivity.
  - change (replicate (S (S n)) Op_count_down)
      with (Op_count_down :: replicate (S n) Op_count_down).
    cbn [run_atomics atomic_step]. rewrite count_down_fragments_eq.
    change (final_state w (Op_count_down :: replicate (S n) Op_count_down) q)
      with (final_state w (replicate (S n) Op_count_down)
              (snd (count_down_fragments w q))).
    rewrite count_down_fragments_eq. cbn [snd map ev_result].
    set (q1 := with_num_active_fragments
                 (size_wrap w (_num_active_fragments q - 1)) q).
    assert (Hq1 : _num_active_fragments q1 = Z.of_nat (S n)).
    { subst q1. cbn [_num_active_fragments with_num_active_fragments].
      rewrite Ha. rewrite size_wrap_small by (unfold is_size_t; lia). lia. }
    destruct (IH q1) as [IH1 IH2]; [lia | exact Hq1 |].
    rewrite IH1, IH2. split; [|reflexivity].
    replace (_num_active_fragments q =? 1) with false
      by (symmetry; apply Z.eqb_neq; lia).
    reflexivity.
Qed.

End FragmentLifecycle.

(** ** Expiry *)

(** X8.  After [extend_lifetime()] at the clock reading [now], an active
    context is never expired; a finished one is not expired up to and
    including [now + expire_seconds], and it is expired from one
    millisecond after that point on. *)
Theorem extend_lifetime_expiry_window (now now' : Z) (q : QueryContext) :
  is_int (_expire_seconds q) ->
  is_int64 (now + _expire_seconds q * 1000000000) ->
  (is_finished q = false ->
     is_expired now' (extend_lifetime now q) = false) /\
  (now' <= now + _expire_seconds q * 1000000000 ->
     is_expired now' (extend_lifetime now q) = false) /\
  (is_finished q = true ->
     0 <= now + _expire_seconds q * 1000000000 ->
     now + _expire_seconds q * 1000000000 + 1000000 <= now' ->
     is_expired now' (extend_lifetime now q) = true).
Proof.
  intros He Hs. unfold is_expired.
  rewrite (extend_lifetime_deadline now q He Hs).
  change (is_finished (extend_lifetime now q)) with (is_finished q).
  set (S := now + _expire_seconds q * 1000000000) in *.
  split; [|split].
  - intros ->. reflexivity.
  - intros Hle. apply andb_false_iff. right. apply Z.ltb_ge.
    apply ns_to_ms_mono. exact Hle.
  - intros -> Hpos Hlate. simpl. apply Z.ltb_lt. unfold ns_to_ms.
    rewrite !Z.quot_div_nonneg by lia.
    apply Z.lt_le_trans with ((S + 1 * 1000000) / 1000000).
    + rewrite Z.div_add by lia. lia.
    + apply Z.div_le_mono; lia.
Qed.

(** ** The descriptor table, over sequences of calls *)

(** X9.  On a context whose descriptor table is not set, [set_desc_tbl] of
    a non-null pointer returns normally in every build, and [desc_tbl()]
    then returns that pointer. *)
Theorem desc_tbl_round_trip (b : build) (d : ptr) (q : QueryContext) :
  _desc_tbl q = nullptr ->
  d <> nullptr ->
  set_desc_tbl b d q = Returns (with_desc_tbl d q) /\
  desc_tbl b (with_desc_tbl d q) = Returns d.
Proof.
  intros Hq Hd. unfold set_desc_tbl, desc_tbl. simpl.
  rewrite (bool_decide_eq_true_2 _ Hq), (bool_decide_eq_true_2 _ Hd).
  destruct b; split; reflexivity.
Qed.

Lemma exec_call_keeps_desc_tbl (w : Z) (b : build) (c : call)
    (q q' : QueryContext) (r : retval) :
  is_set_desc_tbl c = false ->
  exec_call w b c q = Returns (r, q') ->
  _desc_tbl q' = _desc_tbl q.
Proof.
  intros Hc Hex.
  destruct c; simpl in Hc; try discriminate; cbn [exec_call] in Hex;
    try (injection Hex as _ <-; reflexivity).
  - unfold fragment_mgr in Hex.
    destruct (_fragment_mgr q); injection Hex as _ <-; reflexivity.
  - injection Hex as _ <-. unfold cancel, fragment_mgr.
    destruct (_fragment_mgr q); reflexivity.
  - destruct (desc_tbl b q); [|discriminate].
    injection Hex as _ <-. reflexivity.
Qed.

(** X10.  In a debug build a descriptor table that is set stays the same
    for as long as the process runs: after every sequence of calls of the
    public interface that runs to its end, [desc_tbl()] returns the pointer
    that was set, and every sequence with a further [set_desc_tbl] aborts. *)
Theorem desc_tbl_write_once_in_debug (w : Z) (cs : list call)
    (q : QueryContext) :
  _desc_tbl q <> nullptr ->
  (forall q', run_calls w Debug cs q = Returns q' ->
     _desc_tbl q' = _desc_tbl q /\
     desc_tbl Debug q' = Returns (_desc_tbl q)) /\
  (Exists (fun c => is_set_desc_tbl c = true) cs ->
     run_calls w Debug cs q = Aborts).
Proof.
  revert q. induction cs as [|c cs IH]; intros q Hset; split.
  - intros q' Hrun. injection Hrun as <-. split; [reflexivity|].
    unfold desc_tbl, DCHECK. rewrite (bool_decide_eq_true_2 _ Hset).
    reflexivity.
  - intros Hex. apply Exists_nil in Hex. destruct Hex.
  - intros q' Hrun. cbn [run_calls] in Hrun.
    destruct (exec_call w Debug c q) as [[r q1]|] eqn:Hstep; [|discriminate].
    destruct (is_set_desc_tbl c) eqn:Hc.
    + destruct c; try discriminate. cbn [exec_call] in Hstep.
      unfold set_desc_tbl, DCHECK in Hstep.
      rewrite (bool_decide_eq_false_2 _ Hset) in Hstep. discriminate.
    + pose proof (exec_call_keeps_desc_tbl w Debug c q q1 r Hc Hstep) as Hk.
      rewrite <- Hk in Hset |- *. apply (IH q1 Hset). exact Hrun.
  - intros Hex. cbn [run_calls].
    destruct (exec_call w Debug c q) as [[r q1]|] eqn:Hstep; [|reflexivity].
    destruct (is_set_desc_tbl c) eqn:Hc.
    + destruct c; try discriminate. cbn [exec_call] in Hstep.
      unfold set_desc_tbl, DCHECK in Hstep.
      rewrite (bool_decide_eq_false_2 _ Hset) in Hstep. discriminate.
    + pose proof (exec_call_keeps_desc_tbl w Debug c q q1 r Hc Hstep) as Hk.
      rewrite <- Hk in Hset. apply (IH q1 Hset).
      apply Exists_cons in Hex. destruct Hex as [Hex|Hex]; [congruence|].
      exact Hex.
Qed.

(** X11.  In a build without debug assertions no sequence of calls of the
    public interface aborts, and the descriptor table it leaves is the
    pointer given to the last [set_desc_tbl] of the sequence, or the
    original one when the sequence has none. *)
Theorem desc_tbl_last_set_wins_in_release (w : Z) (cs : list call)
    (q : QueryContext) :
  exists q',
    run_calls w Release cs q = Returns q' /\
    _desc_tbl q' = last_set_desc_tbl cs (_desc_tbl q).
Proof.
  revert q. induction cs as [|c cs IH]; intros q.
  - exists q. split; reflexivity.
  - assert (Hstep : exists r q1,
      exec_call w Release c q = Returns (r, q1) /\
      last_set_desc_tbl (c :: cs) (_desc_tbl q) =
        last_set_desc_tbl cs (_desc_tbl q1)).
    { destruct c; cbn [exec_call last_set_desc_tbl];
        try (eexists; eexists; split; reflexivity).
      - unfold fragment_mgr. destruct (_fragment_mgr q);
          eexists; eexists; split; reflexivity.
      - eexists; eexists; split; [reflexivity|].
        unfold cancel, fragment_mgr. destruct (_fragment_mgr q); reflexivity. }
    destruct Hstep as (r & q1 & Hex & Hlast).
    destruct (IH q1) as (q' & Hrun & Hd).
    exists q'. cbn [run_calls]. rewrite Hex. split; [exact Hrun|].
    rewrite Hlast. exact Hd.
Qed.

(** ** Expiry over time *)

(** X12.  Expiry is stable over time: a context that is expired at one
    clock reading is expired at every later reading, as long as no call
    changes it. *)
Theorem is_expired_monotone (now now' : Z) (q : QueryContext) :
  now <= now' ->
  is_expired now q = true ->
  is_expired now' q = true.
Proof.
  unfold is_expired. intros Hle H.
  apply andb_true_iff in H. destruct H as [Hfin Hlt].
  apply andb_true_iff. split; [exact Hfin|].
  apply Z.ltb_lt in Hlt. apply Z.ltb_lt.
  pose proof (ns_to_ms_mono now now' Hle). lia.
Qed.

(** X13.  [set_expire_seconds] takes an [int], which may be negative.  With
    a negative grace period, a finished context is already expired at the
    clock reading at which [extend_lifetime()] refreshed its deadline. *)
Theorem negative_expire_seconds_expires_at_once (now : Z)
    (q : QueryContext) :
  is_int (_expire_seconds q) ->
  _expire_seconds q < 0 ->
  0 <= now ->
  is_int64 (now + _expire_seconds q * 1000000000) ->
  is_finished q = true ->
  is_expired now (extend_lifetime now q) = true.
Proof.
  intros He Hneg Hnow Hs Hfin. unfold is_expired.
  rewrite (extend_lifetime_deadline now q He Hs).
  change (is_finished (extend_lifetime now q)) with (is_finished q).
  rewrite Hfin. simpl. apply Z.ltb_lt.
  apply Z.le_lt_trans with (ns_to_ms (now - 1000000000)).
  - apply ns_to_ms_mono. lia.
  - unfold ns_to_ms.
    destruct (Z_lt_le_dec now 1000000000) as [Hsmall|Hbig].
    + destruct (Z_lt_le_dec now 1000000) as [Htiny|Hms].
      * rewrite (Z.quot_small now) by lia.
        apply Z.le_lt_trans with (Z.quot (- 1000000) 1000000);
          [apply Z.quot_le_mono; lia | reflexivity].
      * apply Z.le_lt_trans with (Z.quot 0 1000000);
          [apply Z.quot_le_mono; lia|].
        apply Z.lt_le_trans with (Z.quot 1000000 1000000);
          [reflexivity | apply Z.quot_le_mono; lia].
    + rewrite !Z.quot_div_nonneg by lia.
      replace (now - 1000000000) with (now + (-1000) * 1000000) by lia.
      rewrite Z.div_add by lia. lia.
Qed.

(** * The statements at concrete inputs *)

(** Each lemma of this part instantiates one of the theorems above on a
    64-bit node and checks its hypotheses there. *)

Lemma count_down_fragments_last_finisher_witness :
  let q := QueryContext_new in
  let t :=
    [Op_fetch_add_num_fragments; Op_fetch_add_num_active;
     Op_fetch_add_num_fragments; Op_fetch_add_num_active;
     Op_count_down; Op_count_down] in
  let h := take 5 (run_atomics 64 t q) in
  let e :=
    mkEvent Op_count_down (Some true)
      (with_num_active_fragments 1 (with_num_fragments 2 q))
      (with_num_active_fragments 0 (with_num_fragments 2 q)) in
  16 <= 64 /\
  is_size_t 64 (_num_active_fragments q) /\
  run_atomics 64 t q = h ++ [e] /\
  Forall (fun e' => ~ reached_zero e') h /\
  reached_zero e /\
  filter returned_true (run_atomics 64 t q) = [e].
Proof.
  intros q t h e.
  assert (Hw : 16 <= 64) by lia.
  assert (Hq : is_size_t 64 (_num_active_fragments q))
    by (unfold is_size_t; simpl; lia).
  assert (Hrun : run_atomics 64 t q = h ++ [e]) by reflexivity.
  assert (Hh : Forall (fun e' => ~ reached_zero e') h).
  { repeat constructor; intros [Hop Hz]; try discriminate Hop;
      vm_compute in Hz; discriminate Hz. }
  assert (He : reached_zero e) by (split; reflexivity).
  split; [exact Hw|]. split; [exact Hq|]. split; [exact Hrun|].
  split; [exact Hh|]. split; [exact He|].
  exact (proj2 (proj2 (proj2
           (count_down_fragments_last_finisher 64 Hw q t Hq)))
           h e [] Hrun Hh (Forall_nil_2 _) He).
Defined.

Lemma extend_lifetime_monotone_witness :
  let cs := [LC_set_expire_seconds 100; LC_extend_lifetime 0;
             LC_extend_lifetime 1000000000] in
  is_int (_expire_seconds QueryContext_new) /\
  no_overflow cs (_expire_seconds QueryContext_new) /\
  expire_never_shortened cs (_expire_seconds QueryContext_new) /\
  StronglySorted Z.le (nows cs) /\
  StronglySorted Z.le (deadlines cs QueryContext_new).
Proof.
  intros cs.
  assert (H1 : is_int (_expire_seconds QueryContext_new))
    by (unfold is_int; simpl; lia).
  assert (H2 : no_overflow cs (_expire_seconds QueryContext_new))
    by (unfold cs; simpl; unfold is_int, is_int64; lia).
  assert (H3 : expire_never_shortened cs (_expire_seconds QueryContext_new))
    by (unfold cs; simpl; lia).
  assert (H4 : StronglySorted Z.le (nows cs)).
  { unfold cs. simpl. repeat constructor. lia. }
  split; [exact H1|]. split; [exact H2|]. split; [exact H3|].
  split; [exact H4|].
  exact (extend_lifetime_monotone cs QueryContext_new H1 H2 H3 H4).
Defined.

Lemma counters_invariant_witness :
  let q := set_total_fragments 2 QueryContext_new in
  let cs := [Call_increment_num_fragments; Call_count_down_fragments] in
  16 <= 64 /\
  is_size_t 64 (_total_fragments q) /\
  _num_fragments q = 0 /\
  _num_active_fragments q = 0 /\
  disciplined (_total_fragments q) cs /\
  cs `prefix_of` cs /\
  counters_ok (snd (count_down_fragments 64 (increment_num_fragments 64 q))).
Proof.
  intros q cs.
  assert (Hw : 16 <= 64) by lia.
  assert (Ht : is_size_t 64 (_total_fragments q))
    by (unfold is_size_t; simpl; lia).
  assert (Hd : disciplined (_total_fragments q) cs).
  { split; [reflexivity|]. intros p [k Hk]. unfold cs in Hk.
    destruct p as [|c1 [|c2 [|c3 p]]]; simplify_eq/=; lia. }
  assert (Hp : cs `prefix_of` cs) by reflexivity.
  split; [exact Hw|]. split; [exact Ht|]. split; [reflexivity|].
  split; [reflexivity|]. split; [exact Hd|]. split; [exact Hp|].
  exact (proj1 (counters_invariant 64 Hw Release q _ cs cs Ht eq_refl eq_refl
                  Hd Hp eq_refl)).
Defined.

Lemma three_fragments_round_trip_witness :
  16 <= 64 /\
  _num_fragments QueryContext_new = 0 /\
  _num_active_fragments QueryContext_new = 0 /\
  let q3 :=
    increment_num_fragments 64
      (increment_num_fragments 64
         (increment_num_fragments 64
            (set_total_fragments 3 QueryContext_new))) in
  let r1 := count_down_fragments 64 q3 in
  let r2 := count_down_fragments 64 (snd r1) in
  let r3 := count_down_fragments 64 (snd r2) in
  is_finished q3 = false /\
  fst r1 = false /\ fst r2 = false /\ fst r3 = true /\
  is_finished (snd r3) = true /\ is_dead (snd r3) = true.
Proof.
  assert (Hw : 16 <= 64) by lia.
  split; [exact Hw|]. split; [reflexivity|]. split; [reflexivity|].
  exact (three_fragments_round_trip 64 Hw QueryContext_new eq_refl eq_refl).
Defined.

Lemma count_down_fragments_underflow_witness :
  16 <= 64 /\
  _num_active_fragments QueryContext_new = 0 /\
  fst (count_down_fragments 64 QueryContext_new) = false /\
  _num_active_fragments (snd (count_down_fragments 64 QueryContext_new)) =
    2 ^ 64 - 1.
Proof.
  assert (Hw : 16 <= 64) by lia.
  split; [exact Hw|]. split; [reflexivity|].
  pose proof (count_down_fragments_underflow 64 Hw QueryContext_new eq_refl)
    as H.
  split; [exact (proj1 H) | exact (proj1 (proj2 H))].
Defined.


Lemma lookup_handle_ownership_witness :
  consistent (world_new 1) /\
  forall h s',
    get_or_register example_hash example_id 0 (world_new 1) = (h, s') ->
    exists a, h = RawPtr a /\
      allocated a s' /\
      held s' = held (world_new 1) /\
      use_count a s' =
        (slots a s' + multiplicity a (held (world_new 1)))%nat.
Proof.
  assert (Hc : consistent (world_new 1))
    by (apply world_new_consistent; lia).
  split; [exact Hc|].
  exact (proj2 (lookup_handle_ownership example_hash
                  (world_new 1) example_id 0 Hc)).
Defined.

Lemma tracer_spans_form_trees_witness :
  let opts := mkTracerOptions "localhost" 6381 in
  let cs := [TC_start_trace "query"; TC_add_span "fragment" 0%nat] in
  let t' := run_tracer cs (Tracer_new "be" opts) in
  known_parents cs 0 /\
  exists root, root_of 1 t' 1%nat = Some root /\ is_root t' root.
Proof.
  intros opts cs t'.
  assert (Hk : known_parents cs 0) by (simpl; split; [lia | exact I]).
  split; [exact Hk|].
  pose proof (tracer_spans_form_trees (Tracer_new "be" opts) "query"
                0%nat cs "be" opts Hk) as (_ & _ & _ & H).
  exact (proj2 (H 1%nat (mkSpanRecord "fragment" (Some 0%nat)) eq_refl)).
Defined.

Lemma count_down_after_increment_witness :
  16 <= 64 /\
  is_size_t 64 (_num_active_fragments QueryContext_new) /\
  fst (count_down_fragments 64
         (increment_num_fragments 64 QueryContext_new)) =
    is_finished QueryContext_new.
Proof.
  assert (Hw : 16 <= 64) by lia.
  assert (Hq : is_size_t 64 (_num_active_fragments QueryContext_new))
    by (unfold is_size_t; simpl; lia).
  split; [exact Hw|]. split; [exact Hq|].
  exact (proj1 (count_down_after_increment 64 Hw QueryContext_new Hq)).
Defined.

Lemma count_down_result_is_finished_witness :
  let q := with_num_active_fragments 1 QueryContext_new in
  16 <= 64 /\
  is_size_t 64 (_num_active_fragments q) /\
  fst (count_down_fragments 64 q) =
    is_finished (snd (count_down_fragments 64 q)).
Proof.
  intros q.
  assert (Hw : 16 <= 64) by lia.
  assert (Hq : is_size_t 64 (_num_active_fragments q))
    by (unfold is_size_t; simpl; lia).
  split; [exact Hw|]. split; [exact Hq|].
  exact (count_down_result_is_finished 64 Hw q Hq).
Defined.

Lemma increment_finished_only_on_overflow_witness :
  16 <= 64 /\
  is_size_t 64 (_num_active_fragments QueryContext_new) /\
  (is_finished (increment_num_fragments 64 QueryContext_new) = true <->
     _num_active_fragments QueryContext_new = 2 ^ 64 - 1).
Proof.
  assert (Hw : 16 <= 64) by lia.
  assert (Hq : is_size_t 64 (_num_active_fragments QueryContext_new))
    by (unfold is_size_t; simpl; lia).
  split; [exact Hw|]. split; [exact Hq|].
  exact (proj1 (increment_finished_only_on_overflow 64 Hw QueryContext_new
                  Hq)).
Defined.

Lemma counters_exact_modulo_witness :
  let t := [Op_fetch_add_num_fragments; Op_count_down;
            Op_fetch_add_num_active] in
  16 <= 64 /\
  is_size_t 64 (_num_fragments QueryContext_new) /\
  is_size_t 64 (_num_active_fragments QueryContext_new) /\
  _num_active_fragments (final_state 64 t QueryContext_new) =
    size_wrap 64
      (_num_active_fragments QueryContext_new
       + count_ops Op_fetch_add_num_active t - count_ops Op_count_down t).
Proof.
  intros t.
  assert (Hw : 16 <= 64) by lia.
  assert (Hf : is_size_t 64 (_num_fragments QueryContext_new))
    by (unfold is_size_t; simpl; lia).
  assert (Ha : is_size_t 64 (_num_active_fragments QueryContext_new))
    by (unfold is_size_t; simpl; lia).
  split; [exact Hw|]. split; [exact Hf|]. split; [exact Ha|].
  exact (proj1 (proj2 (counters_exact_modulo 64 Hw t QueryContext_new
                         Hf Ha))).
Defined.

Lemma is_dead_between_the_two_additions_witness :
  let q := set_total_fragments 1 QueryContext_new in
  16 <= 64 /\
  is_size_t 64 (_total_fragments q) /\
  _num_active_fragments q = 0 /\
  _num_fragments q + 1 = _total_fragments q /\
  is_dead (fetch_add_num_fragments 64 q) = true.
Proof.
  intros q.
  assert (Hw : 16 <= 64) by lia.
  assert (Ht : is_size_t 64 (_total_fragments q))
    by (unfold is_size_t; simpl; lia).
  split; [exact Hw|]. split; [exact Ht|]. split; [reflexivity|].
  split; [reflexivity|].
  exact (proj1 (proj2 (is_dead_between_the_two_additions 64 Hw q Ht
                         eq_refl eq_refl))).
Defined.

Lemma last_of_n_finishers_witness :
  let q := with_num_active_fragments 3 QueryContext_new in
  16 <= 64 /\
  Z.of_nat 3 < 2 ^ 64 /\
  _num_active_fragments q = Z.of_nat 3 /\
  map ev_result (run_atomics 64 (replicate 3 Op_count_down) q) =
    replicate 2 (Some false) ++ [Some true].
Proof.
  intros q.
  assert (Hw : 16 <= 64) by lia.
  assert (Hn : Z.of_nat 3 < 2 ^ 64) by reflexivity.
  split; [exact Hw|]. split; [exact Hn|]. split; [reflexivity|].
  exact (proj1 (last_of_n_finishers 64 Hw 2 q Hn eq_refl)).
Defined.

Lemma racing_increments_keep_counters_ok_witness :
  let q := set_total_fragments 1 QueryContext_new in
  let t := [Op_fetch_add_num_fragments; Op_fetch_add_num_active;
            Op_count_down] in
  16 <= 64 /\
  is_size_t 64 (_total_fragments q) /\
  _num_fragments q = 0 /\
  _num_active_fragments q = 0 /\
  racing_discipline (_total_fragments q) t /\
  t `prefix_of` t /\
  counters_ok (final_state 64 t q).
Proof.
  intros q t.
  assert (Hw : 16 <= 64) by lia.
  assert (Ht : is_size_t 64 (_total_fragments q))
    by (unfold is_size_t; simpl; lia).
  assert (Hd : racing_discipline (_total_fragments q) t).
  { intros p [k Hk]. unfold t in Hk.
    destruct p as [|a1 [|a2 [|a3 [|a4 p]]]]; simplify_eq/=; lia. }
  assert (Hp : t `prefix_of` t) by reflexivity.
  split; [exact Hw|]. split; [exact Ht|]. split; [reflexivity|].
  split; [reflexivity|]. split; [exact Hd|]. split; [exact Hp|].
  exact (racing_increments_keep_counters_ok 64 Hw q t t Ht eq_refl eq_refl
           Hd Hp).
Defined.

Lemma extend_lifetime_expiry_window_witness :
  let q := set_expire_seconds 1 QueryContext_new in
  is_int (_expire_seconds q) /\
  is_int64 (0 + _expire_seconds q * 1000000000) /\
  5 <= 0 + _expire_seconds q * 1000000000 /\
  is_expired 5 (extend_lifetime 0 q) = false.
Proof.
  intros q.
  assert (He : is_int (_expire_seconds q)) by (unfold is_int; simpl; lia).
  assert (Hs : is_int64 (0 + _expire_seconds q * 1000000000))
    by (unfold is_int64; simpl; lia).
  assert (Hle : 5 <= 0 + _expire_seconds q * 1000000000) by (simpl; lia).
  split; [exact He|]. split; [exact Hs|]. split; [exact Hle|].
  exact (proj1 (proj2 (extend_lifetime_expiry_window 0 5 q He Hs)) Hle).
Defined.

Lemma desc_tbl_round_trip_witness :
  _desc_tbl QueryContext_new = nullptr /\
  Some 1%positive <> nullptr /\
  desc_tbl Release (with_desc_tbl (Some 1%positive) QueryContext_new) =
    Returns (Some 1%positive).
Proof.
  assert (Hd : Some 1%positive <> nullptr) by discriminate.
  split; [reflexivity|]. split; [exact Hd|].
  exact (proj2 (desc_tbl_round_trip Release (Some 1%positive)
                  QueryContext_new eq_refl Hd)).
Defined.

Lemma desc_tbl_write_once_in_debug_witness :
  let q := with_desc_tbl (Some 1%positive) QueryContext_new in
  let cs := [Call_is_dead; Call_set_desc_tbl (Some 2%positive)] in
  _desc_tbl q <> nullptr /\
  Exists (fun c => is_set_desc_tbl c = true) cs /\
  run_calls 64 Debug cs q = Aborts.
Proof.
  intros q cs.
  assert (Hq : _desc_tbl q <> nullptr) by discriminate.
  assert (Hex : Exists (fun c => is_set_desc_tbl c = true) cs).
  { apply Exists_cons_tl. apply Exists_cons_hd. reflexivity. }
  split; [exact Hq|]. split; [exact Hex|].
  exact (proj2 (desc_tbl_write_once_in_debug 64 cs q Hq) Hex).
Defined.

Lemma is_expired_monotone_witness :
  1000000 <= 2000000 /\
  is_expired 1000000 QueryContext_new = true /\
  is_expired 2000000 QueryContext_new = true.
Proof.
  assert (Hle : 1000000 <= 2000000) by lia.
  split; [exact Hle|]. split; [reflexivity|].
  exact (is_expired_monotone 1000000 2000000 QueryContext_new Hle eq_refl).
Defined.

Lemma negative_expire_seconds_expires_at_once_witness :
  let q := set_expire_seconds (-1) QueryContext_new in
  is_int (_expire_seconds q) /\
  _expire_seconds q < 0 /\
  0 <= 0 /\
  is_int64 (0 + _expire_seconds q * 1000000000) /\
  is_finished q = true /\
  is_expired 0 (extend_lifetime 0 q) = true.
Proof.
  intros q.
  assert (He : is_int (_expire_seconds q)) by (unfold is_int; simpl; lia).
  assert (Hneg : _expire_seconds q < 0) by (simpl; lia).
  assert (Hnow : 0 <= 0) by lia.
  assert (Hs : is_int64 (0 + _expire_seconds q * 1000000000))
    by (unfold is_int64; simpl; lia).
  split; [exact He|]. split; [exact Hneg|]. split; [exact Hnow|].
  split; [exact Hs|]. split; [reflexivity|].
  exact (negative_expire_seconds_expires_at_once 0 q He Hneg Hnow Hs
           eq_refl).
Defined.
